(** * OCR service: the recognition engine of [ocr-service/src]

    A shallow embedding of [ocr_engine.cpp] / [ocr_engine.h] and of the
    batch-average computation of [api_handler.cpp].

    Conventions of the embedding.
    - [std::string] is [string] (a sequence of 8-bit characters).
    - [int] is [Z]; the coordinates and sizes involved stay far from the
      limits of a 32-bit [int], no wrap-around is modelled.
    - [double] and [float] are exact rationals [Q]; the comparisons and
      the additions of the source are those of [Q].  A [double] member of
      a default-initialised local struct ([OCRResult result;],
      [DocumentInfo info;]) holds no value until it is assigned: it is
      [Indeterminate].
    - [std::map<std::string,std::string>] is [gmap string string].
    - OpenCV, Leptonica and Tesseract are collaborators: their operations
      are the fields of the classes [OpenCV], [Leptonica], [Tesseract].
      An OpenCV operation that reports an error by throwing
      [cv::Exception] returns [Thrown]; [cv::findContours] leaves its
      source as it is (OpenCV 3.2 and later).  Leptonica and Tesseract
      report a failure by a null pointer or a return code and do not
      throw.  [std::make_unique] and [Init] meet one of the outcomes of
      [InitOutcome], given as an argument to [initialize].
    - [std::regex] is a backtracking matcher over the constructs of the
      one pattern the source builds (module [Regex]).
    - A C++ call whose behaviour is undefined (a method call through a
      null [tess_api_]) makes the modelled function return [None]. *)

From Stdlib Require Import Ascii String QArith Qabs Lqa.
From stdpp Require Import base option list strings gmap.

Local Open Scope Z_scope.
Local Open Scope string_scope.

(** ** Characters and strings *)

Module Str.

(** [::tolower] in the "C" locale. *)
Definition tolower (c : ascii) : ascii :=
  let n := N_of_ascii c in
  if ((65 <=? n) && (n <=? 90))%N then ascii_of_N (n + 32) else c.

(** [std::transform(s.begin(), s.end(), s.begin(), f)]. *)
Fixpoint transform (f : ascii -> ascii) (s : string) : string :=
  match s with
  | EmptyString => EmptyString
  | String c s' => String (f c) (transform f s')
  end.

Definition empty (s : string) : bool :=
  match s with EmptyString => true | String _ _ => false end.

(** [s.compare(0, p.size(), p) == 0]: [p] is an initial segment of [s]. *)
Fixpoint starts_with (p s : string) : bool :=
  match p, s with
  | EmptyString, _ => true
  | String a p', String b s' => if ascii_dec a b then starts_with p' s' else false
  | String _ _, EmptyString => false
  end.

(** [s.find(needle)]: the least position at which [needle] occurs,
    [None] for [std::string::npos]. *)
Fixpoint find (s needle : string) : option nat :=
  if starts_with needle s then Some 0%nat
  else match s with
       | EmptyString => None
       | String _ s' => S <$> find s' needle
       end.

(** [s.find(needle) != std::string::npos]. *)
Definition contains (s needle : string) : bool := bool_decide (is_Some (find s needle)).

End Str.

(** ** Document-type detection (ocr_engine.cpp, lines 153-170) *)

Definition detect_document_type (text : string) : string :=
  let text_lower := Str.transform Str.tolower text in
  if Str.contains text_lower "invoice" || Str.contains text_lower "bill" then "invoice"
  else if Str.contains text_lower "receipt" then "receipt"
  else if Str.contains text_lower "contract" || Str.contains text_lower "agreement" then "contract"
  else if Str.contains text_lower "financial" || Str.contains text_lower "report" then "financial_report"
  else "unknown".

(** The rule table of the specification: ordered (keyword group, label)
    pairs, evaluated top-down, first matching group wins. *)
Definition type_rules : list (list string * string) :=
  [ (["invoice"; "bill"], "invoice");
    (["receipt"], "receipt");
    (["contract"; "agreement"], "contract");
    (["financial"; "report"], "financial_report") ].

Definition group_matches (lowered : string) (group : list string) : bool :=
  existsb (Str.contains lowered) group.

Fixpoint first_matching_label (rules : list (list string * string)) (lowered : string) : string :=
  match rules with
  | [] => "unknown"
  | (group, label) :: rest =>
      if group_matches lowered group then label else first_matching_label rest lowered
  end.

(** ** Regular expressions of the shape used by field extraction

    [std::regex] (ECMAScript grammar, [icase]) restricted to the
    constructs that occur in [field + "\\s*[:=]\\s*([^\\n]+)"]. *)

Module Regex.

Inductive atom :=
| Lit (c : ascii)                    (* a literal character, compared under icase *)
| Class (cls : ascii -> bool)        (* one character of a bracket class *)
| ClassStar (cls : ascii -> bool)    (* greedy [X*] over a class *)
| CapPlus (cls : ascii -> bool).     (* capture group 1 around a greedy [X+] *)

(** [\s]: space, \t, \n, \v, \f, \r. *)
Definition is_space (c : ascii) : bool :=
  let n := N_of_ascii c in ((n =? 32) || ((9 <=? n) && (n <=? 13)))%N.

Definition is_colon_or_eq (c : ascii) : bool :=
  let n := N_of_ascii c in ((n =? 58) || (n =? 61))%N.

Definition not_newline (c : ascii) : bool :=
  negb (N_of_ascii c =? 10)%N.

Definition literal (s : string) : list atom := Lit <$> list_ascii_of_string s.

(** Backtracking match of the atoms at the start of [s]; the result is
    the text of capture group 1 (empty when the group did not take part). *)
Fixpoint match_here (p : list atom) (s : string) {struct p} : option string :=
  match p with
  | [] => Some ""
  | Lit c :: rest =>
      match s with
      | String d s' =>
          if ascii_dec (Str.tolower d) (Str.tolower c) then match_here rest s' else None
      | EmptyString => None
      end
  | Class cls :: rest =>
      match s with
      | String d s' => if cls d then match_here rest s' else None
      | EmptyString => None
      end
  | ClassStar cls :: rest =>
      (fix star (s : string) : option string :=
         match s with
         | String d s' =>
             if cls d then
               match star s' with
               | Some cap => Some cap
               | None => match_here rest s
               end
             else match_here rest s
         | EmptyString => match_here rest s
         end) s
  | CapPlus cls :: rest =>
      (fix plus (s : string) : option string :=
         match s with
         | String d s' =>
             if cls d then
               match plus s' with
               | Some cap => Some (String d cap)
               | None =>
                   match match_here rest s' with
                   | Some _ => Some (String d "")
                   | None => None
                   end
               end
             else None
         | EmptyString => None
         end) s
  end.

(** [std::regex_search]: the match that starts leftmost; [match[1].str()]. *)
Fixpoint regex_search (p : list atom) (s : string) : option string :=
  match match_here p s with
  | Some cap => Some cap
  | None =>
      match s with
      | String _ s' => regex_search p s'
      | EmptyString => None
      end
  end.

End Regex.

(** [std::regex pattern(field + "\\s*[:=]\\s*([^\\n]+)", icase)]. *)
Definition field_pattern (field : string) : list Regex.atom :=
  Regex.literal field ++
  [ Regex.ClassStar Regex.is_space; Regex.Class Regex.is_colon_or_eq;
    Regex.ClassStar Regex.is_space; Regex.CapPlus Regex.not_newline ].

Definition fields : list string :=
  ["date"; "amount"; "total"; "name"; "address"; "phone"; "email"].

Definition NL : string := String (ascii_of_N 10) "".

(** ** Numbers *)

Definition Qltb (a b : Q) : bool := negb (Qle_bool b a).

(** A [double] object: [Indeterminate] until a value is stored in it. *)
Inductive double :=
| Indeterminate
| Val (q : Q).

Definition double_add (a b : double) : double :=
  match a, b with
  | Val x, Val y => Val (x + y)
  | _, _ => Indeterminate
  end.

Definition double_div (a b : double) : double :=
  match a, b with
  | Val x, Val y => Val (x / y)
  | _, _ => Indeterminate
  end.

(** ** C++ exceptions *)

Inductive exc (A : Type) :=
| Normal (a : A)
| Thrown.
Arguments Normal {A} a.
Arguments Thrown {A}.

#[global] Instance exc_ret : MRet exc := fun A a => Normal a.
#[global] Instance exc_bind : MBind exc := fun A B f m =>
  match m with
  | Normal a => f a
  | Thrown => Thrown
  end.

(** [std::max_element(first, last, comp)]: the first greatest element. *)
Definition max_element {A} (comp : A -> A -> bool) (l : list A) : option A :=
  match l with
  | [] => None
  | x :: xs => Some (foldl (fun largest y => if comp largest y then y else largest) x xs)
  end.

(** [for (int i = 0; i < n; i++)]. *)
Definition int_range (n : Z) : list Z := Z.of_nat <$> seq 0 (Z.to_nat n).

(** ** The collaborators *)

Inductive ColorConversion := COLOR_BGR2GRAY.
Inductive AdaptiveMethod := ADAPTIVE_THRESH_GAUSSIAN_C.
Inductive ThresholdType := THRESH_BINARY.
Inductive MorphShape := MORPH_RECT.
Inductive MorphOp := MORPH_CLOSE.
Inductive RetrievalMode := RETR_EXTERNAL.
Inductive ApproxMode := CHAIN_APPROX_SIMPLE.
Inductive PageSegMode := PSM_AUTO.

(** [cv::Rect(x, y, width, height)]. *)
Record Rect := mkRect { rect_x : Z; rect_y : Z; rect_width : Z; rect_height : Z }.

Class OpenCV := {
  Mat : Type;
  Contour : Type;
  imread : string -> Mat;
  mat_empty : Mat -> bool;
  mat_channels : Mat -> Z;
  mat_cols : Mat -> Z;
  mat_rows : Mat -> Z;
  mat_at : Mat -> Z -> Z -> Z;                       (* m.at<uchar>(y, x) *)
  cvtColor : Mat -> ColorConversion -> exc Mat;
  equalizeHist : Mat -> exc Mat;
  adaptiveThreshold : Mat -> Q -> AdaptiveMethod -> ThresholdType -> Z -> Q -> exc Mat;
  GaussianBlur : Mat -> Z * Z -> Q -> exc Mat;
  getStructuringElement : MorphShape -> Z * Z -> Mat;
  morphologyEx : Mat -> MorphOp -> Mat -> exc Mat;
  findContours : Mat -> RetrievalMode -> ApproxMode -> exc (list Contour);
  contourArea : Contour -> Q;
  minAreaRect_angle : Contour -> Q;                  (* cv::minAreaRect(c).angle *)
  getRotationMatrix2D : Q * Q -> Q -> Q -> Mat;
  warpAffine : Mat -> Mat -> Z * Z -> exc Mat;
}.

Class Leptonica := {
  Pix : Type;
  pixCreate : Z -> Z -> Z -> option Pix;             (* None: a null Pix* *)
  SET_DATA_BYTE : Pix -> Z -> Z -> Z -> Pix;         (* line y, byte x, value *)
}.

(** One position of a [tesseract::ResultIterator] at [RIL_WORD]. *)
Record WordPos := {
  pos_text : option string;                          (* GetUTF8Text, None: null *)
  pos_confidence : Q;                                (* Confidence *)
  pos_box : Z * Z * Z * Z;                           (* BoundingBox: left, top, right, bottom *)
}.

(** A live iterator: its current position and those [Next] still yields. *)
Record ResultIterator := {
  ri_current : WordPos;
  ri_remaining : list WordPos;
}.

(** The state of a [tesseract::TessBaseAPI] object: what [Init] and the
    setters gave it, the raster it holds, and the rasters it was given
    before, oldest first.  A context may remember the pages it has read
    (its classifier adapts as it reads), so what it reports for a raster
    may depend on the earlier ones. *)
Record TessBaseAPI `{Leptonica} := {
  api_language : option string;                      (* Some l once Init(nullptr, l) returned 0 *)
  api_pageseg_mode : option PageSegMode;
  api_variables : list (string * string);
  api_image : option Pix;
  api_earlier_images : list Pix;
}.

(** What a context reports after [SetImage]: any function of its state,
    the earlier rasters included. *)
Class Tesseract `{Leptonica} := {
  GetUTF8Text : TessBaseAPI -> option string;         (* None: null *)
  MeanTextConf : TessBaseAPI -> Z;
  GetIterator : TessBaseAPI -> option ResultIterator; (* None: null *)
}.

(** What a call of [initialize] meets in [std::make_unique] and [Init]. *)
Inductive InitOutcome :=
| MakeUniqueThrows
| InitThrows
| InitNonZero
| InitZero.

(** ** Results *)

Record OCRResult := {
  text : string;
  confidence : double;
  bounding_boxes : list Rect;
  words : list string;
  word_confidences : list Q;
}.

Record DocumentInfo := {
  document_type : string;
  detected_fields : list string;
  extracted_data : gmap string string;
  overall_confidence : double;
}.

(** [OCRResult{}]: value-initialised. *)
Definition OCRResult_zero : OCRResult :=
  {| text := ""; confidence := Val 0; bounding_boxes := []; words := [];
     word_confidences := [] |}.

(** [OCRResult result;]: default-initialised. *)
Definition OCRResult_default : OCRResult :=
  {| text := ""; confidence := Indeterminate; bounding_boxes := []; words := [];
     word_confidences := [] |}.

(** [DocumentInfo{}]. *)
Definition DocumentInfo_zero : DocumentInfo :=
  {| document_type := ""; detected_fields := []; extracted_data := ∅;
     overall_confidence := Val 0 |}.

(** [DocumentInfo info;]. *)
Definition DocumentInfo_default : DocumentInfo :=
  {| document_type := ""; detected_fields := []; extracted_data := ∅;
     overall_confidence := Indeterminate |}.

Definition set_text (t : string) (r : OCRResult) : OCRResult :=
  {| text := t; confidence := confidence r; bounding_boxes := bounding_boxes r;
     words := words r; word_confidences := word_confidences r |}.

Definition set_confidence (c : double) (r : OCRResult) : OCRResult :=
  {| text := text r; confidence := c; bounding_boxes := bounding_boxes r;
     words := words r; word_confidences := word_confidences r |}.

(** The body of the [do ... while] loop (ocr_engine.cpp, lines 108-119). *)
Definition push_word (r : OCRResult) (p : WordPos) : OCRResult :=
  match pos_text p with
  | Some word =>
      let '(left_, top_, right_, bottom_) := pos_box p in
      {| text := text r; confidence := confidence r;
         bounding_boxes := bounding_boxes r ++ [mkRect left_ top_ (right_ - left_) (bottom_ - top_)];
         words := words r ++ [word];
         word_confidences := word_confidences r ++ [pos_confidence p] |}
  | None => r
  end.

(** [do { body } while (ri->Next(RIL_WORD));] *)
Fixpoint word_loop (current : WordPos) (remaining : list WordPos) (r : OCRResult) : OCRResult :=
  let r := push_word r current in
  match remaining with
  | [] => r
  | next :: remaining' => word_loop next remaining' r
  end.

Definition set_document_type (t : string) (i : DocumentInfo) : DocumentInfo :=
  {| document_type := t; detected_fields := detected_fields i;
     extracted_data := extracted_data i; overall_confidence := overall_confidence i |}.

Definition set_overall_confidence (c : double) (i : DocumentInfo) : DocumentInfo :=
  {| document_type := document_type i; detected_fields := detected_fields i;
     extracted_data := extracted_data i; overall_confidence := c |}.

(** The body of the loop over [fields] (ocr_engine.cpp, lines 175-180). *)
Definition extract_field (txt : string) (info : DocumentInfo) (field : string) : DocumentInfo :=
  match Regex.regex_search (field_pattern field) txt with
  | Some value =>
      {| document_type := document_type info;
         detected_fields := detected_fields info ++ [field];
         extracted_data := <[field := value]> (extracted_data info);
         overall_confidence := overall_confidence info |}
  | None => info
  end.

(** The classifier part of [analyzeDocumentFromMat] (lines 149-185). *)
Definition classify (ocr_result : OCRResult) : DocumentInfo :=
  let info := DocumentInfo_default in
  if Str.empty (text ocr_result) then info
  else
    let info := set_document_type (detect_document_type (text ocr_result)) info in
    let info := foldl (extract_field (text ocr_result)) info fields in
    set_overall_confidence (confidence ocr_result) info.

(** The lambda of [handleBatchProcessing] (api_handler.cpp, lines 182-189). *)
Definition average_confidence (results : list OCRResult) : double :=
  match results with
  | [] => Val 0
  | _ =>
      let sum := foldl (fun sum result => double_add sum (confidence result)) (Val 0) results in
      double_div sum (Val (inject_Z (Z.of_nat (length results))))
  end.

(** ** The engine *)

(** Calls made on the native recognition context, in program order
    (a ghost record; the C++ object does not keep it). *)
Inductive NativeCall `{Leptonica} :=
| CallInit (language : string) (succeeded : bool)
| CallEnd
| CallSetImage (pix : Pix).

Record OCREngine `{Leptonica} := {
  tess_api_ : option TessBaseAPI;                    (* None: a null unique_ptr *)
  language_ : string;
  confidence_threshold_ : Q;
  preprocessing_enabled_ : bool;
  initialized_ : bool;
  native_calls : list NativeCall;                    (* ghost *)
}.

Definition DQUOTE : string := String (ascii_of_N 34) "".

Definition char_whitelist : string :=
  "0123456789ABCDEFGHIJKLMNOPQRSTUVWXYZabcdefghijklmnopqrstuvwxyz.,!?@#$%&*()_+-=[]{}|;:'"
  +:+ DQUOTE +:+ "<>/\ ".

Section Engine.
Context `{cv : OpenCV} `{lept : Leptonica} `{tess : !Tesseract}.

(** [OCREngine::OCREngine()]. *)
Definition OCREngine_new : OCREngine :=
  {| tess_api_ := None; language_ := "eng"; confidence_threshold_ := 60;
     preprocessing_enabled_ := true; initialized_ := false; native_calls := [] |}.

(** [std::make_unique<tesseract::TessBaseAPI>()]. *)
Definition TessBaseAPI_new : TessBaseAPI :=
  {| api_language := None; api_pageseg_mode := None; api_variables := [];
     api_image := None; api_earlier_images := [] |}.

Definition with_api (a : option TessBaseAPI) (e : OCREngine) : OCREngine :=
  {| tess_api_ := a; language_ := language_ e;
     confidence_threshold_ := confidence_threshold_ e;
     preprocessing_enabled_ := preprocessing_enabled_ e;
     initialized_ := initialized_ e; native_calls := native_calls e |}.

Definition with_initialized (b : bool) (e : OCREngine) : OCREngine :=
  {| tess_api_ := tess_api_ e; language_ := language_ e;
     confidence_threshold_ := confidence_threshold_ e;
     preprocessing_enabled_ := preprocessing_enabled_ e;
     initialized_ := b; native_calls := native_calls e |}.

Definition with_language (l : string) (e : OCREngine) : OCREngine :=
  {| tess_api_ := tess_api_ e; language_ := l;
     confidence_threshold_ := confidence_threshold_ e;
     preprocessing_enabled_ := preprocessing_enabled_ e;
     initialized_ := initialized_ e; native_calls := native_calls e |}.

Definition record_call (c : NativeCall) (e : OCREngine) : OCREngine :=
  {| tess_api_ := tess_api_ e; language_ := language_ e;
     confidence_threshold_ := confidence_threshold_ e;
     preprocessing_enabled_ := preprocessing_enabled_ e;
     initialized_ := initialized_ e; native_calls := native_calls e ++ [c] |}.

(** [bool OCREngine::initialize()]. *)
Definition initialize (o : InitOutcome) (e : OCREngine) : bool * OCREngine :=
  match o with
  | MakeUniqueThrows => (false, e)
  | InitThrows =>
      (false, record_call (CallInit (language_ e) false) (with_api (Some TessBaseAPI_new) e))
  | InitNonZero =>
      (false, record_call (CallInit (language_ e) false) (with_api (Some TessBaseAPI_new) e))
  | InitZero =>
      let api :=
        {| api_language := Some (language_ e);
           api_pageseg_mode := Some PSM_AUTO;
           api_variables := [("tessedit_char_whitelist", char_whitelist)];
           api_image := None; api_earlier_images := [] |} in
      (true, with_initialized true
               (record_call (CallInit (language_ e) true) (with_api (Some api) e)))
  end.

(** [void OCREngine::cleanup()]. *)
Definition cleanup (e : OCREngine) : OCREngine :=
  let e :=
    match tess_api_ e with
    | Some _ => with_api None (record_call CallEnd e)
    | None => e
    end in
  with_initialized false e.

(** [enhanceImage]. *)
Definition enhanceImage (input : Mat) : exc Mat :=
  enhanced ← equalizeHist input;
  adaptiveThreshold enhanced 255 ADAPTIVE_THRESH_GAUSSIAN_C THRESH_BINARY 11 2.

(** [removeNoise]. *)
Definition removeNoise (input : Mat) : exc Mat :=
  denoised ← GaussianBlur input (3, 3) 0;
  let kernel := getStructuringElement MORPH_RECT (2, 2) in
  morphologyEx denoised MORPH_CLOSE kernel.

(** The adjustment of the rectangle angle (ocr_engine.cpp, lines 283-285). *)
Definition adjust_angle (angle : Q) : Q :=
  if Qltb angle (-45) then 90 + angle else angle.

(** [deskewImage]. *)
Definition deskewImage (input : Mat) : exc Mat :=
  let deskewed := input in
  contours ← findContours deskewed RETR_EXTERNAL CHAIN_APPROX_SIMPLE;
  if bool_decide (contours = []) then Normal deskewed
  else
    match max_element (fun a b => Qltb (contourArea a) (contourArea b)) contours with
    | None => Normal deskewed                        (* max_contour == contours.end() *)
    | Some max_contour =>
        let angle := adjust_angle (minAreaRect_angle max_contour) in
        if Qltb (1 # 2) (Qabs angle) then
          let center :=
            (inject_Z (mat_cols deskewed) / 2, inject_Z (mat_rows deskewed) / 2)%Q in
          let rotation_matrix := getRotationMatrix2D center angle 1 in
          warpAffine deskewed rotation_matrix (mat_cols deskewed, mat_rows deskewed)
        else Normal deskewed
    end.

(** [preprocessImage]. *)
Definition preprocessImage (input : Mat) : exc Mat :=
  processed ← (if Z.ltb 1 (mat_channels input) then cvtColor input COLOR_BGR2GRAY
               else Normal input);
  processed ← enhanceImage processed;
  processed ← removeNoise processed;
  deskewImage processed.

(** The two nested loops that copy the raster (lines 85-89). *)
Definition copy_to_pix (gray : Mat) (pix : Pix) : Pix :=
  foldl (fun pix y =>
           foldl (fun pix x => SET_DATA_BYTE pix y x (mat_at gray y x))
                 pix (int_range (mat_cols gray)))
        pix (int_range (mat_rows gray)).

(** [tess_api_->SetImage(pix)]. *)
Definition SetImage (pix : Pix) (api : TessBaseAPI) : TessBaseAPI :=
  {| api_language := api_language api; api_pageseg_mode := api_pageseg_mode api;
     api_variables := api_variables api; api_image := Some pix;
     api_earlier_images :=
       match api_image api with
       | Some earlier => (api_earlier_images api ++ [earlier])%list
       | None => api_earlier_images api
       end |}.

(** Lines 65-73: what the [try] block computes before the raster exists. *)
Definition to_gray (image : Mat) (e : OCREngine) : exc Mat :=
  processed_image ← (if preprocessing_enabled_ e then preprocessImage image
                     else Normal image);
  cvtColor processed_image COLOR_BGR2GRAY.

(** Lines 91-122: the recognition pass on the raster. *)
Definition recognize (api : TessBaseAPI) (result : OCRResult) : OCRResult :=
  let result :=
    match GetUTF8Text api with
    | Some t => set_text t result
    | None => result
    end in
  let result := set_confidence (Val (inject_Z (MeanTextConf api))) result in
  match GetIterator api with
  | Some ri => word_loop (ri_current ri) (ri_remaining ri) result
  | None => result
  end.

(** [OCRResult OCREngine::extractTextFromMat(const cv::Mat&)]. *)
Definition extractTextFromMat (image : Mat) (e : OCREngine) : option (OCRResult * OCREngine) :=
  if negb (initialized_ e) then Some (OCRResult_zero, e)
  else
    let result := OCRResult_default in
    match to_gray image e with
    | Thrown => Some (result, e)                     (* catch (const std::exception&) *)
    | Normal gray =>
        match pixCreate (mat_cols gray) (mat_rows gray) 8 with
        | None => Some (result, e)
        | Some pix =>
            let pix := copy_to_pix gray pix in
            api ← tess_api_ e;
            let api := SetImage pix api in
            Some (recognize api result,
                  record_call (CallSetImage pix) (with_api (Some api) e))
        end
    end.

(** [OCRResult OCREngine::extractText(const std::string&)]. *)
Definition extractText (image_path : string) (e : OCREngine) : option (OCRResult * OCREngine) :=
  let image := imread image_path in
  if mat_empty image then Some (OCRResult_zero, e)
  else extractTextFromMat image e.

(** [DocumentInfo OCREngine::analyzeDocumentFromMat(const cv::Mat&)]. *)
Definition analyzeDocumentFromMat (image : Mat) (e : OCREngine)
  : option (DocumentInfo * OCREngine) :=
  '(ocr_result, e) ← extractTextFromMat image e;
  Some (classify ocr_result, e).

(** [DocumentInfo OCREngine::analyzeDocument(const std::string&)]. *)
Definition analyzeDocument (image_path : string) (e : OCREngine)
  : option (DocumentInfo * OCREngine) :=
  let image := imread image_path in
  if mat_empty image then Some (DocumentInfo_zero, e)
  else analyzeDocumentFromMat image e.

(** [std::vector<OCRResult> OCREngine::processBatch(...)]. *)
Fixpoint processBatch (image_paths : list string) (e : OCREngine)
  : option (list OCRResult * OCREngine) :=
  match image_paths with
  | [] => Some ([], e)
  | path :: rest =>
      '(r, e) ← extractText path e;
      '(rs, e) ← processBatch rest e;
      Some (r :: rs, e)
  end.

(** [void OCREngine::setLanguage(const std::string&)]. *)
Definition setLanguage (o : InitOutcome) (language : string) (e : OCREngine) : OCREngine :=
  let e := with_language language e in
  if initialized_ e then (initialize o (cleanup e)).2 else e.

(** [void OCREngine::setConfidenceThreshold(double)]. *)
Definition setConfidenceThreshold (threshold : Q) (e : OCREngine) : OCREngine :=
  {| tess_api_ := tess_api_ e; language_ := language_ e;
     confidence_threshold_ := threshold;
     preprocessing_enabled_ := preprocessing_enabled_ e;
     initialized_ := initialized_ e; native_calls := native_calls e |}.

(** [void OCREngine::enablePreprocessing(bool)]. *)
Definition enablePreprocessing (enable : bool) (e : OCREngine) : OCREngine :=
  {| tess_api_ := tess_api_ e; language_ := language_ e;
     confidence_threshold_ := confidence_threshold_ e;
     preprocessing_enabled_ := enable;
     initialized_ := initialized_ e; native_calls := native_calls e |}.

End Engine.

(** ** Notions used by the statements *)

(** [needle] occurs in [s]. *)
Definition substring (needle s : string) : Prop :=
  exists before after, s = before +:+ needle +:+ after.

Fixpoint all_chars (cls : ascii -> bool) (s : string) : bool :=
  match s with
  | EmptyString => true
  | String c s' => cls c && all_chars cls s'
  end.

Definition is_newline (c : ascii) : bool := (N_of_ascii c =? 10)%N.

(** [s] begins with an occurrence of the pattern of [field] whose value is
    [value]: the field name in any letter case, optional white space, a
    colon or an equals sign, optional white space, then the non-empty
    [value] without a line break, which ends at a line break or at the end
    of [s].  The white space before the value is taken greedily: the value
    begins with a white-space character only when it is that single
    character and nothing but line breaks follows. *)
Definition field_match_at (field value s : string) : Prop :=
  exists name ws1 sep ws2 after,
    s = name +:+ ws1 +:+ String sep (ws2 +:+ value +:+ after) /\
    Str.transform Str.tolower name = Str.transform Str.tolower field /\
    all_chars Regex.is_space ws1 = true /\
    Regex.is_colon_or_eq sep = true /\
    all_chars Regex.is_space ws2 = true /\
    value <> "" /\
    all_chars Regex.not_newline value = true /\
    (after = "" \/ exists rest, after = NL +:+ rest) /\
    (forall c value', value = String c value' -> Regex.is_space c = true ->
                      value' = "" /\ all_chars is_newline after = true).

(** Some occurrence of the pattern of [field] begins at the start of [s]. *)
Definition field_occurs_at (field s : string) : Prop :=
  exists name ws1 sep ws2 value after,
    s = name +:+ ws1 +:+ String sep (ws2 +:+ value +:+ after) /\
    Str.transform Str.tolower name = Str.transform Str.tolower field /\
    all_chars Regex.is_space ws1 = true /\
    Regex.is_colon_or_eq sep = true /\
    all_chars Regex.is_space ws2 = true /\
    value <> "" /\
    all_chars Regex.not_newline value = true.

(** [value] is the value of the leftmost occurrence of the pattern of
    [field] in [txt]. *)
Definition first_field_match (field value txt : string) : Prop :=
  exists before s,
    txt = before +:+ s /\
    field_match_at field value s /\
    forall before' s', txt = before' +:+ s' ->
                       (String.length before' < String.length before)%nat ->
                       ~ field_occurs_at field s'.

(** No occurrence of the pattern of [field] begins anywhere in [txt]. *)
Definition no_field_match (field txt : string) : Prop :=
  forall before s, txt = before +:+ s -> ~ field_occurs_at field s.

(** The longest initial run of characters of a class. *)
Fixpoint span (cls : ascii -> bool) (s : string) : string :=
  match s with
  | EmptyString => EmptyString
  | String c s' => if cls c then String c (span cls s') else EmptyString
  end.

(** The word, confidence and box that one iterator position contributes. *)
Definition rect_of_box (b : Z * Z * Z * Z) : Rect :=
  let '(left_, top_, right_, bottom_) := b in
  mkRect left_ top_ (right_ - left_) (bottom_ - top_).

Definition word_entry (p : WordPos) : option (string * Q * Rect) :=
  word ← pos_text p; Some (word, pos_confidence p, rect_of_box (pos_box p)).

Definition positions (ri : ResultIterator) : list WordPos :=
  ri_current ri :: ri_remaining ri.

(** The word-level segments an iterator emits, in emission order. *)
Definition segments (ri : option ResultIterator) : list (string * Q * Rect) :=
  match ri with
  | Some ri => omap word_entry (positions ri)
  | None => []
  end.

(** The three word sequences of [r] are, index by index, the components of
    [entries]. *)
Definition words_aligned (r : OCRResult) (entries : list (string * Q * Rect)) : Prop :=
  words r = entries.*1.*1 /\
  word_confidences r = entries.*1.*2 /\
  bounding_boxes r = entries.*2.

Fixpoint Qsum (l : list Q) : Q :=
  match l with
  | [] => 0
  | q :: l' => q + Qsum l'
  end.

(** What OpenCV documents about channels: [cvtColor] with
    [COLOR_BGR2GRAY] takes a source of 3 or 4 channels (on any other it
    throws) and gives one channel; histogram equalization, thresholding,
    blurring, the morphological operations and the affine warp give an
    image with as many channels as their source. *)
Class ChannelContract `{OpenCV} : Prop := {
  cvtColor_channels m g :
    cvtColor m COLOR_BGR2GRAY = Normal g ->
    (mat_channels m = 3 \/ mat_channels m = 4) /\ mat_channels g = 1;
  equalizeHist_channels m m' :
    equalizeHist m = Normal m' -> mat_channels m' = mat_channels m;
  adaptiveThreshold_channels m maxval am tt block c m' :
    adaptiveThreshold m maxval am tt block c = Normal m' ->
    mat_channels m' = mat_channels m;
  GaussianBlur_channels m ksize sigma m' :
    GaussianBlur m ksize sigma = Normal m' -> mat_channels m' = mat_channels m;
  morphologyEx_channels m op kernel m' :
    morphologyEx m op kernel = Normal m' -> mat_channels m' = mat_channels m;
  warpAffine_channels m rot size m' :
    warpAffine m rot size = Normal m' -> mat_channels m' = mat_channels m;
}.

Section EngineNotions.
Context `{cv : OpenCV} `{lept : Leptonica} `{tess : !Tesseract}.

(** A set [initialized_] flag comes with a live [tess_api_]. *)
Definition wf (e : OCREngine) : Prop :=
  initialized_ e = true -> is_Some (tess_api_ e).

(** The recognition of [image] is cut short: a collaborator throws before
    the raster exists, or the raster cannot be allocated. *)
Definition recognition_cut_short (image : Mat) (e : OCREngine) : Prop :=
  to_gray image e = Thrown \/
  exists gray, to_gray image e = Normal gray /\
               pixCreate (mat_cols gray) (mat_rows gray) 8 = None.

(** An item of a batch that fails: its path cannot be read, the engine is
    not initialized, or the recognition of its image is cut short. *)
Definition item_fails (image_path : string) (e : OCREngine) : Prop :=
  mat_empty (imread image_path) = true \/
  initialized_ e = false \/
  recognition_cut_short (imread image_path) e.

(** The calls a client of the engine can make. *)
Inductive Op :=
| OpInitialize (o : InitOutcome)
| OpCleanup
| OpExtractText (image_path : string)
| OpExtractTextFromMat (image : Mat)
| OpAnalyzeDocument (image_path : string)
| OpAnalyzeDocumentFromMat (image : Mat)
| OpProcessBatch (image_paths : list string)
| OpSetLanguage (o : InitOutcome) (language : string)
| OpSetConfidenceThreshold (threshold : Q)
| OpEnablePreprocessing (enable : bool).

(** The engine after one call ([None]: undefined behaviour). *)
Definition step (op : Op) (e : OCREngine) : option OCREngine :=
  match op with
  | OpInitialize o => Some (initialize o e).2
  | OpCleanup => Some (cleanup e)
  | OpExtractText p => snd <$> extractText p e
  | OpExtractTextFromMat m => snd <$> extractTextFromMat m e
  | OpAnalyzeDocument p => snd <$> analyzeDocument p e
  | OpAnalyzeDocumentFromMat m => snd <$> analyzeDocumentFromMat m e
  | OpProcessBatch ps => snd <$> processBatch ps e
  | OpSetLanguage o l => Some (setLanguage o l e)
  | OpSetConfidenceThreshold t => Some (setConfidenceThreshold t e)
  | OpEnablePreprocessing b => Some (enablePreprocessing b e)
  end.

Fixpoint run (ops : list Op) (e : OCREngine) : option OCREngine :=
  match ops with
  | [] => Some e
  | op :: ops' => e' ← step op e; run ops' e'
  end.

(** The engines a program can hold: built by the constructor, then used
    through the public calls. *)
Definition reachable (e : OCREngine) : Prop :=
  exists ops, run ops OCREngine_new = Some e.

(** [Init] returned 0. *)
Definition init_succeeds (o : InitOutcome) : bool :=
  match o with InitZero => true | _ => false end.

(** A call of [initialize] that returns [true]. *)
Definition successful_initialize (op : Op) : Prop :=
  op = OpInitialize InitZero.

(** Two engines that differ at most in [confidence_threshold_]. *)
Definition same_but_threshold (e1 e2 : OCREngine) : Prop :=
  tess_api_ e1 = tess_api_ e2 /\ language_ e1 = language_ e2 /\
  preprocessing_enabled_ e1 = preprocessing_enabled_ e2 /\
  initialized_ e1 = initialized_ e2 /\ native_calls e1 = native_calls e2.

(** What [Init] and the setters gave the native context; a recognition
    call changes the rasters the context holds, never this. *)
Definition api_config (a : TessBaseAPI) : option string * option PageSegMode * list (string * string) :=
  (api_language a, api_pageseg_mode a, api_variables a).

Definition same_recognizer (e1 e2 : OCREngine) : Prop :=
  initialized_ e1 = initialized_ e2 /\
  preprocessing_enabled_ e1 = preprocessing_enabled_ e2 /\
  api_config <$> tess_api_ e1 = api_config <$> tess_api_ e2.

(** Two runs of a call agree: both undefined, or both return the same
    value and engines that differ at most in the threshold. *)
Definition agree {A} (x y : option (A * OCREngine)) : Prop :=
  match x, y with
  | Some (a, e1), Some (b, e2) => a = b /\ same_but_threshold e1 e2
  | None, None => True
  | _, _ => False
  end.

(** The outcome of a call, with the threshold of the engine it leaves set
    to [t]. *)
Definition move_threshold {A} (t : Q) (x : option (A * OCREngine)) : option (A * OCREngine) :=
  prod_map id (setConfidenceThreshold t) <$> x.

End EngineNotions.

(** ** A small instance of the collaborators

    An image is the text printed on it, the angle of its largest contour
    and its number of channels; a raster is the list of its bytes; the
    recognizer reads the bytes back.  The operations accept the channel
    counts OpenCV accepts. *)

Module Demo.

Record image := { printed : string; skew : Q; chans : Z }.

Definition byte_at (s : string) (x : Z) : Z :=
  match String.get (Z.to_nat x) s with
  | Some c => Z.of_N (N_of_ascii c)
  | None => 0
  end.

Definition string_of_bytes (l : list Z) : string :=
  string_of_list_ascii ((fun b => ascii_of_N (Z.to_N b)) <$> l).

Definition with_chans (n : Z) (m : image) : image :=
  {| printed := printed m; skew := skew m; chans := n |}.

Definition gray_only (m : image) : exc image :=
  if Z.eqb (chans m) 1 then Normal m else Thrown.

#[export] Instance cv : OpenCV := {|
  Mat := image;
  Contour := Q;
  imread path := {| printed := path; skew := 0; chans := 3 |};
  mat_empty m := Str.empty (printed m);
  mat_channels m := chans m;
  mat_cols m := Z.of_nat (String.length (printed m));
  mat_rows _ := 1;
  mat_at m _ x := byte_at (printed m) x;
  cvtColor m _ :=
    if Z.eqb (chans m) 3 || Z.eqb (chans m) 4 then Normal (with_chans 1 m) else Thrown;
  equalizeHist m := gray_only m;
  adaptiveThreshold m _ _ _ _ _ := gray_only m;
  GaussianBlur m _ _ := Normal m;
  getStructuringElement _ _ := {| printed := ""; skew := 0; chans := 1 |};
  morphologyEx m _ _ := Normal m;
  findContours m _ _ :=
    m ← gray_only m; Normal (if Str.empty (printed m) then [] else [skew m]);
  contourArea _ := 1%Q;
  minAreaRect_angle c := c;
  getRotationMatrix2D _ angle _ := {| printed := ""; skew := angle; chans := 1 |};
  warpAffine m rot _ :=
    Normal {| printed := printed m; skew := (skew m - skew rot)%Q; chans := chans m |};
|}.

#[export] Instance lept : Leptonica := {|
  Pix := list Z;
  pixCreate _ _ _ := Some [];
  SET_DATA_BYTE pix _ _ v := (pix ++ [v])%list;
|}.

Definition page (api : TessBaseAPI) : option string :=
  match api_language api, api_image api with
  | Some _, Some bytes => Some (string_of_bytes bytes)
  | _, _ => None
  end.

#[export] Instance tess : Tesseract := {|
  GetUTF8Text api := page api;
  MeanTextConf api := match page api with Some _ => 80 | None => 0 end;
  GetIterator api :=
    t ← page api;
    Some {| ri_current := {| pos_text := Some t; pos_confidence := 80;
                             pos_box := (2, 3, 2 + Z.of_nat (String.length t), 4) |};
            ri_remaining := [ {| pos_text := None; pos_confidence := 0;
                                 pos_box := (0, 0, 0, 0) |} ] |};
|}.

(** The engine after the constructor and a successful [initialize]. *)
Definition fresh : OCREngine := (initialize InitZero OCREngine_new).2.

(** The same with preprocessing switched off. *)
Definition plain : OCREngine := enablePreprocessing false fresh.

Definition invoice_page : Mat := imread "An INVOICE under contract".

Definition fields_page : Mat := imread ("Total: $450.00" +:+ NL +:+ "Date=2024-01-05").

Definition total_page : Mat := imread "Total: 5".

Definition skewed_page : Mat := {| printed := "abc"; skew := -50; chans := 1 |}.

End Demo.

(** ** The protocol of the native context

    What the recorded calls may look like: [End] and [SetImage] need a
    context, and [SetImage] needs an [Init] that succeeded at some earlier
    time. *)

Inductive ContextState := NoContext | FailedContext | ReadyContext.

Record Protocol := { context : ContextState; ever_ready : bool }.

Definition protocol_start : Protocol := {| context := NoContext; ever_ready := false |}.

Definition has_context (st : Protocol) : bool :=
  match context st with NoContext => false | _ => true end.

Definition protocol_step `{Leptonica} (st : Protocol) (c : NativeCall) : option Protocol :=
  match c with
  | CallInit _ true => Some {| context := ReadyContext; ever_ready := true |}
  | CallInit _ false => Some {| context := FailedContext; ever_ready := ever_ready st |}
  | CallEnd =>
      if has_context st then Some {| context := NoContext; ever_ready := ever_ready st |}
      else None
  | CallSetImage _ =>
      if has_context st && ever_ready st then Some st else None
  end.

Fixpoint protocol_run `{Leptonica} (st : Protocol) (calls : list NativeCall) : option Protocol :=
  match calls with
  | [] => Some st
  | c :: calls' => st' ← protocol_step st c; protocol_run st' calls'
  end.

(** The recorded calls follow the protocol. *)
Definition follows_protocol `{Leptonica} (calls : list NativeCall) : Prop :=
  is_Some (protocol_run protocol_start calls).

(** [GET_DATA_BYTE(line, n)] of Leptonica, which the source does not use,
    to say what a raster holds. *)
Class PixRead `{Leptonica} := {
  GET_DATA_BYTE : Pix -> Z -> Z -> Z;               (* line y, byte x *)
}.

(** What Leptonica documents about the bytes of an 8-bit raster: reading
    back the byte just written gives its low 8 bits, and a write leaves
    every other byte as it was.  A [uchar] read from a [cv::Mat] is below
    256. *)
Class PixAccess `{OpenCV} `{Leptonica} `{!PixRead} : Prop := {
  get_set_byte pix y x v y' x' :
    GET_DATA_BYTE (SET_DATA_BYTE pix y x v) y' x' =
    if decide (y = y' /\ x = x') then v `mod` 256 else GET_DATA_BYTE pix y' x';
  uchar_range m y x : 0 <= mat_at m y x < 256;
}.

(** ** The request handlers (api_handler.cpp)

    A [nlohmann::json] value, the operations of it the handlers use, and
    the handlers.  A response is kept as its status code and the JSON
    value that [dump()] serializes; the error answers hold only texts
    that serialize.  The two clock readings of a handler (the elapsed
    milliseconds and the time stamp) are given to it. *)

#[warnings="-register-all"]
Inductive json :=
| JNull
| JBool (b : bool)
| JInt (z : Z)
| JFloat (d : double)
| JString (s : string)
| JArray (l : list json)
| JObject (m : gmap string json).

(** The outcome of a conversion that may throw [json::type_error]. *)
Inductive converted (A : Type) :=
| Converted (a : A)
| TypeError (what : string).
Arguments Converted {A} a.
Arguments TypeError {A} what.

Class JsonLib := {
  json_parse : string -> option json;                (* None: json::parse throws *)
  type_error_what : json -> string;                  (* what() of the type_error for a value *)
  dump_error : json -> option string;                (* Some what: dump() throws (a string
                                                        that is not UTF-8), None: it serializes *)
}.

Module Json.

(** [j.contains(key)]. *)
Definition contains (j : json) (key : string) : bool :=
  match j with
  | JObject m => bool_decide (is_Some (m !! key))
  | _ => false
  end.

(** [j[key]], used by the handlers only after [contains(key)]. *)
Definition at_key (j : json) (key : string) : json :=
  match j with
  | JObject m => default JNull (m !! key)
  | _ => JNull
  end.

(** [j.empty()]: null is empty, an array or object is empty when it has no
    element, any other value is not empty. *)
Definition empty (j : json) : bool :=
  match j with
  | JNull => true
  | JArray l => match l with [] => true | _ => false end
  | JObject m => Nat.eqb (size m) 0
  | _ => false
  end.

Definition is_array (j : json) : bool :=
  match j with JArray _ => true | _ => false end.

(** The conversion to [std::string]. *)
Definition get_string `{JsonLib} (j : json) : converted string :=
  match j with
  | JString s => Converted s
  | _ => TypeError (type_error_what j)
  end.

Fixpoint get_strings `{JsonLib} (l : list json) : converted (list string) :=
  match l with
  | [] => Converted []
  | j :: l' =>
      match get_string j with
      | TypeError what => TypeError what
      | Converted s =>
          match get_strings l' with
          | TypeError what => TypeError what
          | Converted ss => Converted (s :: ss)
          end
      end
  end.

(** The conversion to [std::vector<std::string>]. *)
Definition get_string_vector `{JsonLib} (j : json) : converted (list string) :=
  match j with
  | JArray l => get_strings l
  | _ => TypeError (type_error_what j)
  end.

End Json.

Record Clock := { elapsed_ms : Z; now_s : Z }.

(** [crow::response(code, body.dump())]. *)
Record response := { code : Z; body : json }.

(** [createErrorResponse(error, status_code)]; the declaration gives
    [status_code] the default 400, and no caller passes another. *)
Definition createErrorResponse (clk : Clock) (error : string) (status_code : Z) : json :=
  JObject {[ "success" := JBool false; "error" := JString error;
             "status_code" := JInt status_code; "timestamp" := JInt (now_s clk) ]}.

(** [createSuccessResponse(data)]. *)
Definition createSuccessResponse (clk : Clock) (data : json) : json :=
  JObject {[ "success" := JBool true; "data" := data; "timestamp" := JInt (now_s clk) ]}.

(** [validateRequest(request_data)]. *)
Definition validateRequest (request_data : json) : bool :=
  Json.contains request_data "file_path" &&
  negb (Json.empty (Json.at_key request_data "file_path")).

Definition json_strings (l : list string) : json := JArray (JString <$> l).

Definition json_size {A} (l : list A) : json := JInt (Z.of_nat (length l)).

(** One element of [batch_results] (api_handler.cpp, lines 171-175). *)
Definition batch_entry (result : OCRResult) : json :=
  JObject {[ "text" := JString (text result); "confidence" := JFloat (confidence result);
             "word_count" := json_size (words result) ]}.

Section Handlers.
Context `{cv : OpenCV} `{lept : Leptonica} `{tess : !Tesseract} `{jl : JsonLib}.

(** The outer [catch (const std::exception& e)] of every handler. *)
Definition internal_error (clk : Clock) (what : string) : response :=
  {| code := 500;
     body := createErrorResponse clk ("Internal server error: " +:+ what) 400 |}.

Definition bad_request (clk : Clock) (error : string) : response :=
  {| code := 400; body := createErrorResponse clk error 400 |}.

(** [return crow::response(200, createSuccessResponse(data).dump())] inside
    the [try] block. *)
Definition respond_success (clk : Clock) (data : json) : response :=
  let answer := createSuccessResponse clk data in
  match dump_error answer with
  | None => {| code := 200; body := answer |}
  | Some what => internal_error clk what
  end.

(** [APIHandler::handleExtractRequest]. *)
Definition handleExtractRequest (clk : Clock) (req_body : string) (e : OCREngine)
  : option (response * OCREngine) :=
  match json_parse req_body with
  | None => Some (bad_request clk "Invalid JSON format", e)
  | Some request_data =>
      if negb (validateRequest request_data)
      then Some (bad_request clk "Missing required fields", e)
      else
        match Json.get_string (Json.at_key request_data "file_path") with
        | TypeError what => Some (internal_error clk what, e)
        | Converted file_path =>
            '(result, e) ← extractText file_path e;
            let response_data :=
              JObject {[ "text" := JString (text result);
                         "confidence" := JFloat (confidence result);
                         "processing_time" := JInt (elapsed_ms clk);
                         "word_count" := json_size (words result);
                         "words" := json_strings (words result);
                         "word_confidences" :=
                           JArray ((fun q => JFloat (Val q)) <$> word_confidences result) ]} in
            Some (respond_success clk response_data, e)
        end
  end.

(** [APIHandler::handleDocumentAnalysis]. *)
Definition handleDocumentAnalysis (clk : Clock) (req_body : string) (e : OCREngine)
  : option (response * OCREngine) :=
  match json_parse req_body with
  | None => Some (bad_request clk "Invalid JSON format", e)
  | Some request_data =>
      if negb (Json.contains request_data "file_path")
      then Some (bad_request clk "Missing file_path field", e)
      else
        match Json.get_string (Json.at_key request_data "file_path") with
        | TypeError what => Some (internal_error clk what, e)
        | Converted file_path =>
            '(info, e) ← analyzeDocument file_path e;
            let response_data :=
              JObject {[ "document_type" := JString (document_type info);
                         "detected_fields" := json_strings (detected_fields info);
                         "extracted_data" := JObject (JString <$> extracted_data info);
                         "overall_confidence" := JFloat (overall_confidence info);
                         "processing_time" := JInt (elapsed_ms clk) ]} in
            Some (respond_success clk response_data, e)
        end
  end.

(** [APIHandler::handleBatchProcessing]. *)
Definition handleBatchProcessing (clk : Clock) (req_body : string) (e : OCREngine)
  : option (response * OCREngine) :=
  match json_parse req_body with
  | None => Some (bad_request clk "Invalid JSON format", e)
  | Some request_data =>
      if negb (Json.contains request_data "file_paths") ||
         negb (Json.is_array (Json.at_key request_data "file_paths"))
      then Some (bad_request clk "Missing or invalid file_paths array", e)
      else
        match Json.get_string_vector (Json.at_key request_data "file_paths") with
        | TypeError what => Some (internal_error clk what, e)
        | Converted file_paths =>
            if bool_decide (file_paths = [])
            then Some (bad_request clk "Empty file_paths array", e)
            else
              '(results, e) ← processBatch file_paths e;
              let batch_results := JArray (batch_entry <$> results) in
              let response_data :=
                JObject {[ "results" := batch_results;
                           "total_files" := json_size results;
                           "processing_time" := JInt (elapsed_ms clk);
                           "average_confidence" := JFloat (average_confidence results) ]} in
              Some (respond_success clk response_data, e)
        end
  end.

End Handlers.

(** ** The file name of an upload (api_handler.cpp, lines 228-231) *)

Module Upload.

(** [s.substr(pos)], [Thrown] for [std::out_of_range]. *)
Definition substr_from (s : string) (pos : nat) : exc string :=
  if (pos <=? String.length s)%nat
  then Normal (String.substring pos (String.length s - pos) s)
  else Thrown.

(** [s.find(c, pos)]. *)
Fixpoint find_char_from (s : string) (c : ascii) (pos : nat) : option nat :=
  match s with
  | EmptyString => None
  | String d s' =>
      match pos with
      | O => if ascii_dec d c then Some O else S <$> find_char_from s' c O
      | S pos' => S <$> find_char_from s' c pos'
      end
  end.

(** [s.substr(0, n)] with [n] possibly [npos]. *)
Definition prefix_upto (s : string) (n : option nat) : string :=
  match n with
  | Some n => String.substring 0 n s
  | None => s
  end.

(** The name [saveUploadedFile] takes from a Content-Disposition value:
    [None] when the value has no "filename=". *)
Definition uploaded_filename (content_disposition : string) : option (exc string) :=
  filename_pos ← Str.find content_disposition "filename=";
  Some (filename ← substr_from content_disposition (filename_pos + 10);
        Normal (prefix_upto filename (find_char_from filename (ascii_of_N 34) 1))).

End Upload.

(** ** A raster that can be read back, for the examples *)

Module DemoRaster.

#[export] Instance lept : Leptonica := {|
  Pix := gmap (Z * Z) Z;
  pixCreate _ _ _ := Some ∅;
  SET_DATA_BYTE pix y x v := <[(y, x) := v `mod` 256]> pix;
|}.

#[export] Instance rd : PixRead := {|
  GET_DATA_BYTE pix y x := default 0 (pix !! (y, x));
|}.

End DemoRaster.

(** ** A canned JSON parser and a clock for the examples *)

Module DemoHttp.

(** A parser that answers [parsed] to a body that is not empty. *)
Definition parser (parsed : json) : JsonLib :=
  {| json_parse body := if Str.empty body then None else Some parsed;
     type_error_what _ := "type must be string";
     dump_error _ := None |}.

Definition clock : Clock := {| elapsed_ms := 12; now_s := 1700000000 |}.

End DemoHttp.

(** ** A page with several outlines, for the examples *)

Module DemoContours.

(** A drawing is the outlines on it, each with its area and the angle of
    its rectangle, and the angle the drawing has been turned by. *)
Record drawing := { outlines : list (Q * Q); turned : Q }.

#[export] Instance cv : OpenCV := {|
  Mat := drawing;
  Contour := Q * Q;
  imread _ := {| outlines := []; turned := 0 |};
  mat_empty m := match outlines m with [] => true | _ => false end;
  mat_channels _ := 1;
  mat_cols _ := 4;
  mat_rows _ := 2;
  mat_at _ _ _ := 0;
  cvtColor _ _ := Thrown;
  equalizeHist m := Normal m;
  adaptiveThreshold m _ _ _ _ _ := Normal m;
  GaussianBlur m _ _ := Normal m;
  getStructuringElement _ _ := {| outlines := []; turned := 0 |};
  morphologyEx m _ _ := Normal m;
  findContours m _ _ := Normal (outlines m);
  contourArea c := c.1;
  minAreaRect_angle c := c.2;
  getRotationMatrix2D _ angle _ := {| outlines := []; turned := angle |};
  warpAffine m rot _ :=
    Normal {| outlines := outlines m; turned := (turned m + turned rot)%Q |};
|}.

(** Four outlines; the second and the third have the greatest area. *)
Definition crowded_page : drawing :=
  {| outlines := [(2, 10); (5, -60); (5, 20); (1, -80)]%Q; turned := 0 |}.

End DemoContours.

(** ** Further notions used by the statements *)



(** The protocol state the recorded calls lead to matches the engine. *)
Definition tracks `{Leptonica} (e : OCREngine) (st : Protocol) : Prop :=
  protocol_run protocol_start (native_calls e) = Some st /\
  (has_context st = true <-> is_Some (tess_api_ e)) /\
  (initialized_ e = true -> ever_ready st = true /\ is_Some (tess_api_ e)).

(** * Properties *)

(** ** Strings *)

Lemma append_cons a s t : String a s +:+ t = String a (s +:+ t).
Proof. reflexivity. Qed.

Lemma append_nil t : "" +:+ t = t.
Proof. reflexivity. Qed.

Lemma append_nil_r s : s +:+ "" = s.
Proof. induction s as [|a s IH]; [done|]. by rewrite append_cons, IH. Qed.

Lemma append_assoc s t u : (s +:+ t) +:+ u = s +:+ t +:+ u.
Proof. induction s as [|a s IH]; [done|]. by rewrite !append_cons, IH. Qed.

Lemma starts_with_spec p s :
  Str.starts_with p s = true <-> exists after, s = p +:+ after.
Proof.
  revert s. induction p as [|a p IH]; intros s; simpl.
  - split; [eauto | done].
  - destruct s as [|b s].
    + split; [done | intros [after H]; discriminate].
    + setoid_rewrite append_cons.
      destruct (ascii_dec a b) as [->|Hne].
      * rewrite IH. split; intros [after H]; exists after; congruence.
      * split; [done | intros [after H]; congruence].
Qed.

Lemma find_is_Some s needle :
  is_Some (Str.find s needle) <-> substring needle s.
Proof.
  induction s as [|c s IH]; simpl.
  - destruct (Str.starts_with needle "") eqn:Hp.
    + apply starts_with_spec in Hp as [after Hp].
      split; [intros _; exists "", after; done | eauto].
    + split; [intros [? ?]; discriminate |].
      intros (before & after & H). destruct before; [|discriminate].
      rewrite append_nil in H. assert (Str.starts_with needle "" = true); [|congruence].
      apply starts_with_spec. eauto.
  - destruct (Str.starts_with needle (String c s)) eqn:Hp.
    + apply starts_with_spec in Hp as [after Hp].
      split; [intros _; exists "", after; done | eauto].
    + rewrite fmap_is_Some, IH. split.
      * intros (before & after & ->). exists (String c before), after. done.
      * intros (before & after & H). destruct before as [|c' before].
        -- assert (Str.starts_with needle (String c s) = true); [|congruence].
           apply starts_with_spec. exists after. done.
        -- rewrite append_cons in H. injection H as -> ->. exists before, after. done.
Qed.

Lemma contains_substring s needle :
  Str.contains s needle = true <-> substring needle s.
Proof.
  unfold Str.contains. rewrite bool_decide_eq_true. apply find_is_Some.
Qed.

Lemma contains_not_substring s needle :
  Str.contains s needle = false <-> ~ substring needle s.
Proof.
  rewrite <- contains_substring. destruct (Str.contains s needle); split; congruence.
Qed.

Lemma empty_spec s : Str.empty s = true <-> s = "".
Proof. destruct s; simpl; split; congruence. Qed.

Lemma group_matches_spec lowered group :
  group_matches lowered group = true <->
  exists k, k ∈ group /\ substring k lowered.
Proof.
  unfold group_matches. rewrite existsb_exists. split.
  - intros (k & Hin & Hk). exists k. split.
    + by apply list_elem_of_In.
    + by apply contains_substring.
  - intros (k & Hin & Hk). exists k. split.
    + by apply list_elem_of_In.
    + by apply contains_substring.
Qed.

(** The cascade of [if]s is the rule table read top-down. *)
Lemma detect_document_type_rules txt :
  detect_document_type txt =
  first_matching_label type_rules (Str.transform Str.tolower txt).
Proof.
  unfold detect_document_type, type_rules, first_matching_label, group_matches.
  cbn [existsb]. rewrite !orb_false_r. reflexivity.
Qed.

(** ** The classifier *)

Lemma extract_field_document_type txt info field :
  document_type (extract_field txt info field) = document_type info.
Proof. unfold extract_field. by destruct (Regex.regex_search _ _). Qed.

Lemma extract_fields_document_type txt fs info :
  document_type (foldl (extract_field txt) info fs) = document_type info.
Proof.
  revert info. induction fs as [|f fs IH]; intros info; simpl; [done|].
  by rewrite IH, extract_field_document_type.
Qed.

Lemma classify_document_type r :
  text r <> "" ->
  document_type (classify r) = detect_document_type (text r).
Proof.
  intros Hne. unfold classify.
  destruct (Str.empty (text r)) eqn:He; [by apply empty_spec in He|].
  unfold set_overall_confidence. cbn [document_type].
  by rewrite extract_fields_document_type.
Qed.

Lemma classify_empty r :
  text r = "" -> classify r = DocumentInfo_default.
Proof. intros H. unfold classify. by rewrite H. Qed.

Section ClassifierFacts.
Context `{cv : OpenCV} `{lept : Leptonica} `{tess : !Tesseract}.

Lemma analyzeDocumentFromMat_classify image e r e' :
  extractTextFromMat image e = Some (r, e') ->
  analyzeDocumentFromMat image e = Some (classify r, e').
Proof. intros H. unfold analyzeDocumentFromMat. by rewrite H. Qed.

(** C4. For a recognized text that is not empty, the document type is the
    label of the first group of the rule table, read in its fixed order,
    one of whose keywords occurs in the lower-cased text, and "unknown"
    when no group has such a keyword; a text with both "invoice" and
    "contract" is an "invoice". *)
Theorem document_type_first_matching_group image e r e' :
  extractTextFromMat image e = Some (r, e') ->
  text r <> "" ->
  exists info,
    analyzeDocumentFromMat image e = Some (info, e') /\
    let lowered := Str.transform Str.tolower (text r) in
    document_type info = first_matching_label type_rules lowered /\
    (forall group, group_matches lowered group = true <->
                   exists k, k ∈ group /\ substring k lowered) /\
    (substring "invoice" lowered -> substring "contract" lowered ->
     document_type info = "invoice") /\
    ((forall group label k, (group, label) ∈ type_rules -> k ∈ group ->
                            ~ substring k lowered) ->
     document_type info = "unknown").
Proof.
  intros Hx Hne. exists (classify r). split.
  { by apply analyzeDocumentFromMat_classify. }
  cbv zeta. rewrite classify_document_type by done.
  split; [apply detect_document_type_rules|].
  split; [intros group; apply group_matches_spec|].
  split.
  - intros Hi _. unfold detect_document_type.
    apply contains_substring in Hi. by rewrite Hi.
  - intros Hno. unfold detect_document_type.
    assert (forall group label k, (group, label) ∈ type_rules -> k ∈ group ->
              Str.contains (Str.transform Str.tolower (text r)) k = false) as Hk.
    { intros group label k Hg Hkg. apply contains_not_substring. eauto. }
    rewrite (Hk ["invoice"; "bill"] "invoice" "invoice") by (unfold type_rules; set_solver).
    rewrite (Hk ["invoice"; "bill"] "invoice" "bill") by (unfold type_rules; set_solver).
    rewrite (Hk ["receipt"] "receipt" "receipt") by (unfold type_rules; set_solver).
    rewrite (Hk ["contract"; "agreement"] "contract" "contract")
      by (unfold type_rules; set_solver).
    rewrite (Hk ["contract"; "agreement"] "contract" "agreement")
      by (unfold type_rules; set_solver).
    rewrite (Hk ["financial"; "report"] "financial_report" "financial")
      by (unfold type_rules; set_solver).
    rewrite (Hk ["financial"; "report"] "financial_report" "report")
      by (unfold type_rules; set_solver).
    reflexivity.
Qed.

(** C8. When the recognized text is empty, the analysis skips the type
    detection and the field loop and returns the local [DocumentInfo info;]
    untouched, from either entry point: no document type, no detected
    field, no extracted value.  Its [overall_confidence] was never given
    a value, so what is returned is not the zero-valued [DocumentInfo{}],
    which [analyzeDocument] returns for a path that cannot be read. *)
Theorem empty_text_gives_empty_info image e r e' :
  extractTextFromMat image e = Some (r, e') ->
  text r = "" ->
  (exists info,
     analyzeDocumentFromMat image e = Some (info, e') /\
     (forall image_path,
        imread image_path = image -> mat_empty image = false ->
        analyzeDocument image_path e = Some (info, e')) /\
     info = DocumentInfo_default /\
     document_type info = "" /\
     detected_fields info = [] /\
     extracted_data info = ∅ /\
     overall_confidence info = Indeterminate /\
     info <> DocumentInfo_zero) /\
  (forall image_path e0,
     mat_empty (imread image_path) = true ->
     analyzeDocument image_path e0 = Some (DocumentInfo_zero, e0)).
Proof.
  intros Hx Ht. split.
  - exists (classify r).
    pose proof (analyzeDocumentFromMat_classify _ _ _ _ Hx) as Ha.
    split; [exact Ha|]. split.
    { intros image_path <- Hr. unfold analyzeDocument. by rewrite Hr. }
    rewrite classify_empty by done. repeat split; discriminate.
  - intros image_path e0 Hr. unfold analyzeDocument. by rewrite Hr.
Qed.

End ClassifierFacts.

(** ** The matcher on the field pattern *)

Section MatcherFacts.
Import Regex.

Lemma match_lit_cons c rest d s :
  match_here (Lit c :: rest) (String d s) =
  if ascii_dec (Str.tolower d) (Str.tolower c) then match_here rest s else None.
Proof. reflexivity. Qed.

Lemma match_lit_nil c rest : match_here (Lit c :: rest) "" = None.
Proof. reflexivity. Qed.

Lemma match_class_cons cls rest d s :
  match_here (Class cls :: rest) (String d s) =
  if cls d then match_here rest s else None.
Proof. reflexivity. Qed.

Lemma match_star_nil cls rest :
  match_here (ClassStar cls :: rest) "" = match_here rest "".
Proof. reflexivity. Qed.

Lemma match_star_cons cls rest d s :
  match_here (ClassStar cls :: rest) (String d s) =
  if cls d then
    match match_here (ClassStar cls :: rest) s with
    | Some cap => Some cap
    | None => match_here rest (String d s)
    end
  else match_here rest (String d s).
Proof. reflexivity. Qed.

Lemma match_plus_nil cls rest :
  match_here (CapPlus cls :: rest) "" = None.
Proof. reflexivity. Qed.

Lemma match_plus_cons cls rest d s :
  match_here (CapPlus cls :: rest) (String d s) =
  if cls d then
    match match_here (CapPlus cls :: rest) s with
    | Some cap => Some (String d cap)
    | None =>
        match match_here rest s with
        | Some _ => Some (String d "")
        | None => None
        end
    end
  else None.
Proof. reflexivity. Qed.

Lemma span_all cls s : all_chars cls (span cls s) = true.
Proof.
  induction s as [|d s IH]; simpl; [done|].
  destruct (cls d) eqn:Hd; simpl; [by rewrite Hd|done].
Qed.

Lemma span_split cls s :
  exists after, s = span cls s +:+ after /\
    (after = "" \/ exists d rest, after = String d rest /\ cls d = false).
Proof.
  induction s as [|d s (after & IH & Hafter)]; simpl.
  - exists "". eauto.
  - destruct (cls d) eqn:Hd.
    + exists after. rewrite append_cons, <- IH. done.
    + exists (String d s). rewrite append_nil. eauto 6.
Qed.

#[local] Arguments Regex.match_here : simpl never.

(** A final captured [X+] takes the longest run of [X] at the start. *)
Lemma match_plus_last cls s :
  match_here [CapPlus cls] s =
  if Str.empty (span cls s) then None else Some (span cls s).
Proof.
  induction s as [|d s IH]; [done|].
  rewrite match_plus_cons. simpl span. destruct (cls d); [|done].
  rewrite IH. destruct (span cls s); done.
Qed.

Lemma not_newline_false d : not_newline d = false -> String d "" = NL.
Proof.
  unfold not_newline, NL. rewrite negb_false_iff, N.eqb_eq. intros H.
  f_equal. by rewrite <- (ascii_N_embedding d), H.
Qed.

Lemma newline_is_space d : is_newline d = true -> is_space d = true.
Proof.
  unfold is_newline, is_space. rewrite N.eqb_eq. by intros ->.
Qed.

Lemma not_newline_is_newline d : not_newline d = negb (is_newline d).
Proof. reflexivity. Qed.

Lemma colon_or_eq_not_space d : is_colon_or_eq d = true -> is_space d = false.
Proof.
  unfold is_colon_or_eq, is_space. rewrite orb_true_iff, !N.eqb_eq.
  by intros [-> | ->].
Qed.

Lemma all_chars_app cls s t :
  all_chars cls (s +:+ t) = all_chars cls s && all_chars cls t.
Proof.
  induction s as [|d s IH]; [done|].
  rewrite append_cons. simpl. by rewrite IH, andb_assoc.
Qed.

(** The tail [\s*([^\n]+)] of the pattern fails only on line breaks. *)
Lemma match_value_None s :
  match_here [ClassStar is_space; CapPlus not_newline] s = None ->
  all_chars is_newline s = true.
Proof.
  induction s as [|d s IH]; [done|].
  rewrite match_star_cons, match_plus_cons, not_newline_is_newline. simpl.
  destruct (is_newline d) eqn:Hn; simpl.
  - rewrite (newline_is_space d Hn).
    destruct (match_here _ s); [done | auto].
  - destruct (match_here [CapPlus not_newline] s);
      destruct (is_space d); try done;
      destruct (match_here _ s); done.
Qed.

Lemma all_newline_no_value s v :
  all_chars is_newline s = true -> all_chars not_newline v = true ->
  (exists before after, s = before +:+ v +:+ after) -> v = "".
Proof.
  intros Hs Hv (before & after & ->).
  rewrite !all_chars_app, !andb_true_iff in Hs. destruct Hs as (_ & Hs & _).
  destruct v as [|c v]; [done|]. simpl in Hs, Hv.
  rewrite not_newline_is_newline in Hv. by destruct (is_newline c).
Qed.

Lemma match_value_sound s v :
  match_here [ClassStar is_space; CapPlus not_newline] s = Some v ->
  exists ws2 after,
    s = ws2 +:+ v +:+ after /\
    all_chars is_space ws2 = true /\
    v <> "" /\
    all_chars not_newline v = true /\
    (after = "" \/ exists rest, after = NL +:+ rest) /\
    (forall c v', v = String c v' -> is_space c = true ->
                  v' = "" /\ all_chars is_newline after = true).
Proof.
  assert (forall s v, match_here [CapPlus not_newline] s = Some v ->
            exists after, s = v +:+ after /\ v <> "" /\
              all_chars not_newline v = true /\
              (after = "" \/ exists rest, after = NL +:+ rest)) as Hplus.
  { clear. intros s v. rewrite match_plus_last.
    destruct (Str.empty (span not_newline s)) eqn:He; [done|]. intros [= <-].
    destruct (span_split not_newline s) as (after & Hs & Hafter).
    exists after. split; [done|]. split.
    { intros Hv. by rewrite Hv in He. }
    split; [apply span_all|].
    destruct Hafter as [->|(d & rest & -> & Hd)]; [by left|right].
    exists rest. by rewrite <- (not_newline_false d Hd). }
  revert v. induction s as [|d s IH]; intros v.
  - rewrite match_star_nil, match_plus_nil. done.
  - rewrite match_star_cons.
    destruct (match_here [ClassStar is_space; CapPlus not_newline] s) as [cap|] eqn:Hs.
    + destruct (is_space d) eqn:Hd.
      * intros [= <-].
        destruct (IH cap eq_refl) as (ws2 & after & -> & Hws & Hrest).
        exists (String d ws2), after. rewrite append_cons.
        split; [done|]. split; [simpl; by rewrite Hd|done].
      * intros Hm. destruct (Hplus _ _ Hm) as (after & Hv & Hne & Hnl & Hafter).
        exists "", after. rewrite append_nil. repeat (split; [done|]).
        intros c v' -> Hc. rewrite append_cons in Hv. injection Hv as -> _.
        congruence.
    + intros Hm.
      assert (match_here [CapPlus not_newline] (String d s) = Some v) as Hm'.
      { by destruct (is_space d). }
      destruct (Hplus _ _ Hm') as (after & Hv & Hne & Hnl & Hafter).
      exists "", after. rewrite append_nil. repeat (split; [done|]).
      intros c v' -> Hc. rewrite append_cons in Hv. injection Hv as -> ->.
      apply match_value_None in Hs. simpl in Hnl.
      apply andb_true_iff in Hnl as [_ Hnl].
      assert (v' = "") as ->.
      { apply (all_newline_no_value _ _ Hs Hnl). exists "", after. done. }
      split; [done|]. by rewrite append_nil in Hs.
Qed.

Lemma match_value_complete ws2 v after :
  all_chars is_space ws2 = true -> v <> "" -> all_chars not_newline v = true ->
  is_Some (match_here [ClassStar is_space; CapPlus not_newline] (ws2 +:+ v +:+ after)).
Proof.
  intros Hws Hne Hnl.
  destruct (match_here _ (ws2 +:+ v +:+ after)) eqn:Hm; [done|].
  apply match_value_None in Hm. destruct Hne.
  apply (all_newline_no_value _ _ Hm Hnl). eauto.
Qed.

Lemma match_star_sound cls rest s v :
  match_here (ClassStar cls :: rest) s = Some v ->
  exists ws s', s = ws +:+ s' /\ all_chars cls ws = true /\ match_here rest s' = Some v.
Proof.
  revert v. induction s as [|d s IH]; intros v.
  - rewrite match_star_nil. intros Hm. exists "", "". done.
  - rewrite match_star_cons.
    destruct (cls d) eqn:Hd; [|intros Hm; exists "", (String d s); done].
    destruct (match_here (ClassStar cls :: rest) s) as [cap|].
    + intros [= <-]. destruct (IH cap eq_refl) as (ws & s' & -> & Hws & Hm).
      exists (String d ws), s'. rewrite append_cons. simpl. by rewrite Hd.
    + intros Hm. exists "", (String d s). done.
Qed.

Lemma match_star_complete cls rest ws s :
  all_chars cls ws = true -> is_Some (match_here rest s) ->
  is_Some (match_here (ClassStar cls :: rest) (ws +:+ s)).
Proof.
  intros Hws Hm. induction ws as [|d ws IH].
  - rewrite append_nil. destruct s as [|d s]; [done|].
    rewrite match_star_cons. destruct (cls d); [|done].
    by destruct (match_here (ClassStar cls :: rest) s).
  - simpl in Hws. apply andb_true_iff in Hws as [Hd Hws].
    rewrite append_cons, match_star_cons, Hd.
    destruct (IH Hws) as [cap ->]. done.
Qed.

Lemma match_literal f rest s v :
  match_here (literal f ++ rest) s = Some v <->
  exists name s', s = name +:+ s' /\
    Str.transform Str.tolower name = Str.transform Str.tolower f /\
    match_here rest s' = Some v.
Proof.
  revert s. induction f as [|c f IH]; intros s.
  - change (literal "" ++ rest)%list with rest. split.
    + intros Hm. exists "", s. done.
    + intros (name & s' & -> & Hn & Hm). by destruct name.
  - change (literal (String c f) ++ rest)%list with (Lit c :: (literal f ++ rest))%list.
    destruct s as [|d s]; [rewrite match_lit_nil | rewrite match_lit_cons].
    + split; [done|]. intros (name & s' & Hs & Hn & _).
      destruct name; discriminate.
    + destruct (ascii_dec (Str.tolower d) (Str.tolower c)) as [Hdc|Hdc].
      * rewrite IH. split.
        -- intros (name & s' & -> & Hn & Hm). exists (String d name), s'.
           rewrite append_cons. simpl. by rewrite Hdc, Hn.
        -- intros (name & s' & Hs & Hn & Hm).
           destruct name as [|d' name]; [discriminate|].
           rewrite append_cons in Hs. injection Hs as <- ->.
           simpl in Hn. injection Hn as _ Hn. eauto.
      * split; [done|]. intros (name & s' & Hs & Hn & _).
        destruct name as [|d' name]; [discriminate|].
        rewrite append_cons in Hs. injection Hs as <- ->.
        simpl in Hn. by injection Hn as Hd _.
Qed.

(** At one position, the matcher accepts an occurrence of the pattern and
    returns its value. *)
Lemma match_field_sound field s v :
  match_here (field_pattern field) s = Some v -> field_match_at field v s.
Proof.
  unfold field_pattern. rewrite match_literal.
  intros (name & s1 & -> & Hname & Hm).
  apply match_star_sound in Hm as (ws1 & s2 & -> & Hws1 & Hm).
  destruct s2 as [|sep s3]; [done|]. rewrite match_class_cons in Hm.
  destruct (is_colon_or_eq sep) eqn:Hsep; [|done].
  apply match_value_sound in Hm as (ws2 & after & -> & Hrest).
  exists name, ws1, sep, ws2, after. done.
Qed.

Lemma match_field_complete field s :
  field_occurs_at field s -> is_Some (match_here (field_pattern field) s).
Proof.
  intros (name & ws1 & sep & ws2 & value & after & -> & Hname & Hws1 & Hsep
          & Hws2 & Hne & Hnl).
  pose proof (match_value_complete ws2 value after Hws2 Hne Hnl) as Hv.
  assert (is_Some (match_here
            [Class is_colon_or_eq; ClassStar is_space; CapPlus not_newline]
            (String sep (ws2 +:+ value +:+ after)))) as Hc.
  { rewrite match_class_cons. by rewrite Hsep. }
  destruct (match_star_complete is_space _ ws1 _ Hws1 Hc) as [v Hm].
  exists v. unfold field_pattern. apply match_literal. eauto.
Qed.

Lemma regex_search_Some p txt v :
  regex_search p txt = Some v ->
  exists before s, txt = before +:+ s /\ match_here p s = Some v /\
    forall before' s', txt = before' +:+ s' ->
      (String.length before' < String.length before)%nat ->
      match_here p s' = None.
Proof.
  induction txt as [|d txt IH]; simpl.
  - destruct (match_here p "") eqn:Hm; [|done]. intros [= <-].
    exists "", "". repeat split; [done|]. intros ? ? _ Hlt. simpl in Hlt. lia.
  - destruct (match_here p (String d txt)) eqn:Hm.
    + intros [= <-]. exists "", (String d txt). repeat split; [done|].
      intros ? ? _ Hlt. simpl in Hlt. lia.
    + intros Hs. destruct (IH Hs) as (before & s & -> & Hv & Hfirst).
      exists (String d before), s. rewrite append_cons. repeat split; [done|].
      intros before' s' Heq Hlt. destruct before' as [|d' before'].
      * rewrite append_nil in Heq. by subst s'.
      * rewrite append_cons in Heq. injection Heq as <- Heq.
        apply (Hfirst before' s' Heq). simpl in Hlt. lia.
Qed.

Lemma regex_search_None p txt :
  regex_search p txt = None ->
  forall before s, txt = before +:+ s -> match_here p s = None.
Proof.
  induction txt as [|d txt IH]; simpl.
  - destruct (match_here p "") eqn:Hm; [done|]. intros _ before s Heq.
    destruct before; [|discriminate]. rewrite append_nil in Heq. by subst s.
  - destruct (match_here p (String d txt)) eqn:Hm; [done|]. intros Hs before s Heq.
    destruct before as [|d' before].
    + rewrite append_nil in Heq. by subst s.
    + rewrite append_cons in Heq. injection Heq as <- Heq. eauto.
Qed.

Lemma regex_search_first_match field txt v :
  regex_search (field_pattern field) txt = Some v -> first_field_match field v txt.
Proof.
  intros Hs. apply regex_search_Some in Hs as (before & s & -> & Hm & Hfirst).
  exists before, s. split; [done|]. split; [by apply match_field_sound|].
  intros before' s' Heq Hlt Hocc. apply match_field_complete in Hocc as [v' Hv'].
  rewrite (Hfirst before' s' Heq Hlt) in Hv'. done.
Qed.

Lemma regex_search_no_match field txt :
  regex_search (field_pattern field) txt = None -> no_field_match field txt.
Proof.
  intros Hs before s Heq Hocc. apply match_field_complete in Hocc as [v' Hv'].
  rewrite (regex_search_None _ _ Hs before s Heq) in Hv'. done.
Qed.

End MatcherFacts.

(** ** The field loop *)

Lemma extract_fields_detected txt fs info :
  detected_fields (foldl (extract_field txt) info fs) =
  (detected_fields info ++
   filter (fun f => is_Some (Regex.regex_search (field_pattern f) txt)) fs)%list.
Proof.
  revert info. induction fs as [|f fs IH]; intros info; simpl.
  - by rewrite app_nil_r.
  - rewrite IH, filter_cons. unfold extract_field.
    destruct (Regex.regex_search (field_pattern f) txt) as [v|] eqn:Hs.
    + rewrite decide_True by done. simpl. by rewrite <- app_assoc.
    + rewrite decide_False by (by intros [? ?]). done.
Qed.

Lemma extract_fields_data txt fs info f :
  extracted_data (foldl (extract_field txt) info fs) !! f =
  match (if decide (f ∈ fs) then Regex.regex_search (field_pattern f) txt else None) with
  | Some v => Some v
  | None => extracted_data info !! f
  end.
Proof.
  revert info. induction fs as [|g fs IH]; intros info; cbn [foldl].
  - rewrite decide_False by set_solver. done.
  - rewrite IH. unfold extract_field.
    destruct (decide (f ∈ fs)) as [Hin|Hin].
    + rewrite decide_True by set_solver.
      destruct (Regex.regex_search (field_pattern f) txt) as [v|] eqn:Hf; [done|].
      destruct (Regex.regex_search (field_pattern g) txt) as [w|] eqn:Hg; [|done].
      simpl. rewrite lookup_insert_ne; [done|]. intros ->. congruence.
    + destruct (decide (f = g)) as [->|Hne].
      * rewrite decide_True by set_solver.
        destruct (Regex.regex_search (field_pattern g) txt) as [w|] eqn:Hg; simpl.
        -- by rewrite lookup_insert_eq.
        -- done.
      * rewrite decide_False by (intros [?|?]%elem_of_cons; done).
        destruct (Regex.regex_search (field_pattern g) txt) as [w|] eqn:Hg; simpl.
        -- by rewrite lookup_insert_ne.
        -- done.
Qed.

Lemma classify_detected_fields r :
  text r <> "" ->
  detected_fields (classify r) =
  filter (fun f => is_Some (Regex.regex_search (field_pattern f) (text r))) fields.
Proof.
  intros Hne. unfold classify.
  destruct (Str.empty (text r)) eqn:He; [by apply empty_spec in He|].
  unfold set_overall_confidence. cbn [detected_fields].
  by rewrite extract_fields_detected.
Qed.

Lemma classify_extracted_data r f :
  text r <> "" ->
  extracted_data (classify r) !! f =
  if decide (f ∈ fields) then Regex.regex_search (field_pattern f) (text r) else None.
Proof.
  intros Hne. unfold classify.
  destruct (Str.empty (text r)) eqn:He; [by apply empty_spec in He|].
  unfold set_overall_confidence. cbn [extracted_data].
  rewrite extract_fields_data. cbn [set_document_type DocumentInfo_default extracted_data].
  rewrite lookup_empty. by destruct (if decide (f ∈ fields) then _ else _).
Qed.

Section FieldFacts.
Context `{cv : OpenCV} `{lept : Leptonica} `{tess : !Tesseract}.

(** C5. For a recognized text that is not empty, the analysis goes through
    date, amount, total, name, address, phone, email in this order and
    searches the text as recognized for the pattern of each: the field
    name in any letter case, optional white space, a colon or an equals
    sign, optional white space, the value up to the next line break.
    [detected_fields] lists the fields that have an occurrence, in the
    order of the list; [extracted_data] maps each of them to the value of
    its leftmost occurrence and has no other entry.  For the text of two
    lines "Total: $450.00" and "Date=2024-01-05" the detected fields are
    date then total, with values "2024-01-05" and "$450.00". *)
Theorem field_extraction_first_match_in_list_order image e r e' :
  extractTextFromMat image e = Some (r, e') ->
  text r <> "" ->
  exists info,
    analyzeDocumentFromMat image e = Some (info, e') /\
    fields = ["date"; "amount"; "total"; "name"; "address"; "phone"; "email"] /\
    detected_fields info =
      filter (fun f => is_Some (Regex.regex_search (field_pattern f) (text r))) fields /\
    (forall f, extracted_data info !! f =
               if decide (f ∈ fields)
               then Regex.regex_search (field_pattern f) (text r) else None) /\
    (forall f v, Regex.regex_search (field_pattern f) (text r) = Some v ->
                 first_field_match f v (text r)) /\
    (forall f, Regex.regex_search (field_pattern f) (text r) = None ->
               no_field_match f (text r)) /\
    (text r = "Total: $450.00" +:+ NL +:+ "Date=2024-01-05" ->
     detected_fields info = ["date"; "total"] /\
     extracted_data info = {[ "total" := "$450.00"; "date" := "2024-01-05" ]}).
Proof.
  intros Hx Hne. exists (classify r). split.
  { by apply analyzeDocumentFromMat_classify. }
  split; [done|].
  split; [by apply classify_detected_fields|].
  split; [intros f; by apply classify_extracted_data|].
  split; [intros f v; apply regex_search_first_match|].
  split; [intros f; apply regex_search_no_match|].
  intros Ht. unfold classify. rewrite Ht. split.
  - vm_compute. reflexivity.
  - vm_compute. reflexivity.
Qed.

End FieldFacts.

(** ** The recognition pass *)

Lemma push_word_entry r p :
  text (push_word r p) = text r /\
  confidence (push_word r p) = confidence r /\
  words (push_word r p) = (words r ++ (omap word_entry [p]).*1.*1)%list /\
  word_confidences (push_word r p) =
    (word_confidences r ++ (omap word_entry [p]).*1.*2)%list /\
  bounding_boxes (push_word r p) = (bounding_boxes r ++ (omap word_entry [p]).*2)%list.
Proof.
  unfold push_word, word_entry, rect_of_box.
  destruct (pos_text p) as [w|] eqn:Hw;
    destruct (pos_box p) as [[[? ?] ?] ?] eqn:Hb;
    simpl; rewrite Hw; simpl; rewrite ?Hb, ?app_nil_r; done.
Qed.

Lemma omap_cons_app {A B} (f : A -> option B) x l :
  omap f (x :: l) = (omap f [x] ++ omap f l)%list.
Proof. simpl. by destruct (f x). Qed.

Lemma word_loop_entries current remaining r :
  let r' := word_loop current remaining r in
  let entries := omap word_entry (current :: remaining) in
  text r' = text r /\
  confidence r' = confidence r /\
  words r' = (words r ++ entries.*1.*1)%list /\
  word_confidences r' = (word_confidences r ++ entries.*1.*2)%list /\
  bounding_boxes r' = (bounding_boxes r ++ entries.*2)%list.
Proof.
  cbv zeta. revert current r.
  induction remaining as [|next remaining IH]; intros current r.
  - apply push_word_entry.
  - cbn [word_loop].
    destruct (IH next (push_word r current)) as (-> & -> & -> & -> & ->).
    destruct (push_word_entry r current) as (-> & -> & -> & -> & ->).
    rewrite (omap_cons_app word_entry current (next :: remaining)).
    by rewrite !fmap_app, <- !app_assoc.
Qed.

Section RecognitionFacts.
Context `{cv : OpenCV} `{lept : Leptonica} `{tess : !Tesseract}.

Lemma recognize_default api :
  let r := recognize api OCRResult_default in
  text r = default "" (GetUTF8Text api) /\
  confidence r = Val (inject_Z (MeanTextConf api)) /\
  words_aligned r (segments (GetIterator api)).
Proof.
  cbv zeta. unfold recognize, words_aligned, segments, positions.
  destruct (GetIterator api) as [ri|].
  - match goal with |- context [word_loop ?c ?l ?r0] =>
      destruct (word_loop_entries c l r0) as (-> & -> & -> & -> & ->) end.
    by destruct (GetUTF8Text api).
  - by destruct (GetUTF8Text api).
Qed.

Lemma words_aligned_lengths r entries :
  words_aligned r entries ->
  length (words r) = length (word_confidences r) /\
  length (word_confidences r) = length (bounding_boxes r).
Proof. intros (-> & -> & ->). by rewrite !length_fmap. Qed.

(** What a returned result can be: the zero value, the untouched local
    [result], or the outcome of the recognition pass. *)
Lemma extractTextFromMat_cases image e r e' :
  extractTextFromMat image e = Some (r, e') ->
  (r = OCRResult_zero /\ e' = e) \/
  (r = OCRResult_default /\ e' = e) \/
  (exists api, tess_api_ e' = Some api /\ r = recognize api OCRResult_default).
Proof.
  unfold extractTextFromMat. destruct (initialized_ e); simpl; [|naive_solver].
  destruct (to_gray image e) as [gray|]; [|naive_solver].
  destruct (pixCreate _ _ _) as [pix|]; [|naive_solver].
  destruct (tess_api_ e) as [api|]; [|done]. simpl. intros [= <- <-].
  right. right. eauto.
Qed.

Lemma extractText_cases image_path e r e' :
  extractText image_path e = Some (r, e') ->
  (r = OCRResult_zero /\ e' = e) \/
  (r = OCRResult_default /\ e' = e) \/
  (exists api, tess_api_ e' = Some api /\ r = recognize api OCRResult_default).
Proof.
  unfold extractText. destruct (mat_empty _); [naive_solver|].
  apply extractTextFromMat_cases.
Qed.

Lemma extractTextFromMat_total image e :
  wf e -> is_Some (extractTextFromMat image e).
Proof.
  intros Hwf. unfold extractTextFromMat.
  destruct (initialized_ e) eqn:Hi; simpl; [|done].
  destruct (to_gray image e) as [gray|]; [|done].
  destruct (pixCreate _ _ _) as [pix|]; [|done].
  destruct (Hwf Hi) as [api ->]. done.
Qed.

Lemma extractText_total image_path e :
  wf e -> is_Some (extractText image_path e).
Proof.
  intros Hwf. unfold extractText. destruct (mat_empty _); [done|].
  by apply extractTextFromMat_total.
Qed.

Lemma cases_aligned r (e e' : OCREngine) :
  (r = OCRResult_zero /\ e' = e) \/
  (r = OCRResult_default /\ e' = e) \/
  (exists api, tess_api_ e' = Some api /\ r = recognize api OCRResult_default) ->
  exists entries,
    words_aligned r entries /\
    (entries = [] \/
     exists api, tess_api_ e' = Some api /\ entries = segments (GetIterator api)).
Proof.
  intros [[-> _]|[[-> _]|(api & Hapi & ->)]].
  - exists []. split; [done | by left].
  - exists []. split; [done | by left].
  - exists (segments (GetIterator api)). split; [apply recognize_default | eauto].
Qed.

(** X1. On an initialized engine, when the preprocessor (run only if
    preprocessing is enabled), the conversion to a single channel and the
    allocation of the raster succeed, [extractTextFromMat] hands the
    recognizer the raster copied from the converted image and returns its
    full text, its mean confidence and its word-level segments in the
    order the iterator emits them. *)
Theorem extractTextFromMat_pipeline image e api0 processed gray pix0 :
  initialized_ e = true ->
  tess_api_ e = Some api0 ->
  (if preprocessing_enabled_ e then preprocessImage image else Normal image)
    = Normal processed ->
  cvtColor processed COLOR_BGR2GRAY = Normal gray ->
  pixCreate (mat_cols gray) (mat_rows gray) 8 = Some pix0 ->
  let pix := copy_to_pix gray pix0 in
  let api := SetImage pix api0 in
  exists r e',
    extractTextFromMat image e = Some (r, e') /\
    native_calls e' = (native_calls e ++ [CallSetImage pix])%list /\
    tess_api_ e' = Some api /\
    text r = default "" (GetUTF8Text api) /\
    confidence r = Val (inject_Z (MeanTextConf api)) /\
    words_aligned r (segments (GetIterator api)).
Proof.
  intros Hi Ha Hp Hg Hpix pix api.
  unfold extractTextFromMat, to_gray. rewrite Hi, Hp. simpl.
  rewrite Hg, Hpix, Ha. simpl. eexists _, _. split; [done|].
  split; [done|]. split; [done|]. apply recognize_default.
Qed.

Lemma bind_Normal {A B} (m : exc A) (f : A -> exc B) b :
  m ≫= f = Normal b -> exists a, m = Normal a /\ f a = Normal b.
Proof. destruct m as [a|]; [eauto | done]. Qed.

Lemma deskewImage_channels `{Hch : !ChannelContract} input output :
  deskewImage input = Normal output -> mat_channels output = mat_channels input.
Proof.
  unfold deskewImage. intros (contours & _ & H)%bind_Normal.
  destruct (bool_decide (contours = [])); [by injection H as <-|].
  destruct (max_element _ contours) as [c|]; [|by injection H as <-].
  destruct (Qltb _ _); [|by injection H as <-].
  by apply warpAffine_channels in H.
Qed.

(** The preprocessor gives an image of at most one channel. *)
Lemma preprocessImage_channels `{Hch : !ChannelContract} input output :
  preprocessImage input = Normal output -> mat_channels output <= 1.
Proof.
  unfold preprocessImage, enhanceImage, removeNoise.
  intros (m1 & H1 & (m2 & (m0 & H0 & H2)%bind_Normal
          & (m3 & (m4 & H4 & H3)%bind_Normal & H5)%bind_Normal)%bind_Normal)%bind_Normal.
  apply deskewImage_channels in H5. apply morphologyEx_channels in H3.
  apply GaussianBlur_channels in H4. apply adaptiveThreshold_channels in H2.
  apply equalizeHist_channels in H0.
  assert (mat_channels m1 <= 1); [|lia].
  destruct (Z.ltb 1 (mat_channels input)) eqn:Hc.
  - apply cvtColor_channels in H1. lia.
  - injection H1 as <-. lia.
Qed.

(** C2. With preprocessing enabled the recognizer is never reached: the
    preprocessor leaves an image of one channel, the unguarded
    [cvtColor(processed_image, gray, COLOR_BGR2GRAY)] that follows accepts
    only 3 or 4 channels and throws, and the [catch] block returns the
    local result, without a text or a word, and an engine to which no
    raster was handed. *)
Theorem preprocessed_image_never_recognized `{Hch : !ChannelContract} image e :
  initialized_ e = true ->
  preprocessing_enabled_ e = true ->
  extractTextFromMat image e = Some (OCRResult_default, e).
Proof.
  intros Hi Hp. unfold extractTextFromMat, to_gray. rewrite Hi, Hp. simpl.
  destruct (preprocessImage image) as [processed|] eqn:Hpre; [|done]. simpl.
  destruct (cvtColor processed COLOR_BGR2GRAY) as [gray|] eqn:Hg; [|done].
  apply preprocessImage_channels in Hpre. apply cvtColor_channels in Hg. lia.
Qed.

End RecognitionFacts.

(** ** Skew correction *)

Lemma Qltb_lt a b : Qltb a b = true <-> (a < b)%Q.
Proof.
  unfold Qltb. rewrite negb_true_iff, <- not_true_iff_false, Qle_bool_iff.
  split; [apply Qnot_le_lt | apply Qlt_not_le].
Qed.

Lemma Qltb_ge a b : Qltb a b = false <-> (b <= a)%Q.
Proof.
  unfold Qltb. rewrite negb_false_iff, Qle_bool_iff. done.
Qed.

Lemma max_element_greatest {A} (area : A -> Q) l c :
  max_element (fun a b => Qltb (area a) (area b)) l = Some c ->
  c ∈ l /\ forall c', c' ∈ l -> (area c' <= area c)%Q.
Proof.
  destruct l as [|x xs]; [done|]. simpl. intros [= <-].
  set (pick := fun largest y => if Qltb (area largest) (area y) then y else largest).
  assert (forall xs x,
            let m := foldl pick x xs in
            (m = x \/ m ∈ xs) /\ (area x <= area m)%Q /\
            forall c', c' ∈ xs -> (area c' <= area m)%Q) as Hinv.
  { clear. intros xs. induction xs as [|y xs IH]; intros x; cbn [foldl].
    - split; [by left|]. split; [apply Qle_refl|].
      intros c' Hc'. by apply elem_of_nil in Hc'.
    - specialize (IH (pick x y)). cbv zeta in IH.
      set (m := foldl pick (pick x y) xs) in *.
      destruct IH as (Hin & Hle & Hall).
      assert ((pick x y = y /\ (area x <= area y)%Q) \/
              (pick x y = x /\ (area y <= area x)%Q)) as [[Hp Hc]|[Hp Hc]].
      { unfold pick. destruct (Qltb (area x) (area y)) eqn:Hc.
        - left. split; [done|]. by apply Qlt_le_weak, Qltb_lt.
        - right. split; [done|]. by apply Qltb_ge. }
      + rewrite Hp in Hin, Hle. split.
        { right. destruct Hin as [->|Hin]; [apply list_elem_of_here|].
          by apply list_elem_of_further. }
        split; [by eapply Qle_trans|].
        intros c' [->|Hc']%elem_of_cons; [done | by apply Hall].
      + rewrite Hp in Hin, Hle. split.
        { destruct Hin as [->|Hin]; [by left|]. right. by apply list_elem_of_further. }
        split; [done|].
        intros c' [->|Hc']%elem_of_cons; [by eapply Qle_trans | by apply Hall]. }
  destruct (Hinv xs x) as (Hin & Hle & Hall). split.
  { destruct Hin as [->|Hin]; [apply list_elem_of_here|]. by apply list_elem_of_further. }
  intros c' [->|Hc']%elem_of_cons; [done | by apply Hall].
Qed.

Section DeskewFacts.
Context `{cv : OpenCV}.

(** C3. [deskewImage] returns its input when no external contour is
    found, and when the adjusted angle of the minimum-area rectangle of a
    contour of greatest area is at most 0.5 in absolute value; otherwise
    it rotates the whole image about its centre, keeping its size.  The
    adjustment adds 90 to an angle below -45 and leaves any other angle as
    it is: -50 becomes 40, 10 stays 10. *)
Theorem deskew_angle_policy input :
  (findContours input RETR_EXTERNAL CHAIN_APPROX_SIMPLE = Normal [] ->
   deskewImage input = Normal input) /\
  (forall contours,
     findContours input RETR_EXTERNAL CHAIN_APPROX_SIMPLE = Normal contours ->
     contours <> [] ->
     exists c,
       c ∈ contours /\
       (forall c', c' ∈ contours -> (contourArea c' <= contourArea c)%Q) /\
       let angle := adjust_angle (minAreaRect_angle c) in
       ((Qabs angle <= 1 # 2)%Q -> deskewImage input = Normal input) /\
       ((1 # 2 < Qabs angle)%Q ->
        deskewImage input =
        warpAffine input
          (getRotationMatrix2D
             (inject_Z (mat_cols input) / 2, inject_Z (mat_rows input) / 2)%Q angle 1)
          (mat_cols input, mat_rows input))) /\
  (forall a, (a < -45)%Q -> adjust_angle a = (90 + a)%Q) /\
  (forall a, (-45 <= a)%Q -> adjust_angle a = a) /\
  adjust_angle (-50) = 40%Q /\
  adjust_angle 10 = 10%Q.
Proof.
  split; [|split; [|split; [|split; [|split]]]].
  - intros Hc. unfold deskewImage. by rewrite Hc.
  - intros contours Hc Hne. unfold deskewImage. rewrite Hc. simpl.
    rewrite bool_decide_eq_false_2 by done.
    destruct (max_element _ contours) as [c|] eqn:Hmax.
    + apply (max_element_greatest contourArea) in Hmax as [Hin Hall].
      exists c. split; [done|]. split; [done|]. cbv zeta. split.
      * intros Hle. apply Qltb_ge in Hle. by rewrite Hle.
      * intros Hlt. apply Qltb_lt in Hlt. by rewrite Hlt.
    + by destruct contours.
  - intros a Ha. unfold adjust_angle. apply Qltb_lt in Ha. by rewrite Ha.
  - intros a Ha. unfold adjust_angle. apply Qltb_ge in Ha. by rewrite Ha.
  - reflexivity.
  - reflexivity.
Qed.

End DeskewFacts.

(** ** Configuration and lifecycle *)

Section LifecycleFacts.
Context `{cv : OpenCV} `{lept : Leptonica} `{tess : !Tesseract}.

(** C10. On an engine that is not initialized, [setLanguage] stores the
    language and does nothing else: no call reaches the native context,
    the context pointer, the threshold and the preprocessing switch keep
    their values, and the engine stays uninitialized. *)
Theorem setLanguage_uninitialized_only_stores o language e :
  initialized_ e = false ->
  let e' := setLanguage o language e in
  language_ e' = language /\
  native_calls e' = native_calls e /\
  tess_api_ e' = tess_api_ e /\
  confidence_threshold_ e' = confidence_threshold_ e /\
  preprocessing_enabled_ e' = preprocessing_enabled_ e /\
  initialized_ e' = false.
Proof.
  intros Hi. unfold setLanguage. cbn [with_language initialized_]. by rewrite Hi.
Qed.

Lemma extractTextFromMat_uninitialized image e :
  initialized_ e = false -> extractTextFromMat image e = Some (OCRResult_zero, e).
Proof. intros Hi. unfold extractTextFromMat. by rewrite Hi. Qed.

Lemma extractText_uninitialized image_path e :
  initialized_ e = false -> extractText image_path e = Some (OCRResult_zero, e).
Proof.
  intros Hi. unfold extractText. destruct (mat_empty _); [done|].
  by apply extractTextFromMat_uninitialized.
Qed.

Lemma processBatch_uninitialized image_paths e :
  initialized_ e = false ->
  processBatch image_paths e = Some (replicate (length image_paths) OCRResult_zero, e).
Proof.
  intros Hi. induction image_paths as [|p ps IH]; [done|].
  cbn [processBatch]. rewrite extractText_uninitialized by done. simpl.
  by rewrite IH.
Qed.

Lemma analyzeDocumentFromMat_uninitialized image e :
  initialized_ e = false ->
  analyzeDocumentFromMat image e = Some (DocumentInfo_default, e).
Proof.
  intros Hi. unfold analyzeDocumentFromMat.
  by rewrite extractTextFromMat_uninitialized.
Qed.

(** An uninitialized engine stays so under every call but a successful
    [initialize], and every call on it is defined. *)
Lemma step_uninitialized op e :
  initialized_ e = false -> ~ successful_initialize op ->
  exists e', step op e = Some e' /\ initialized_ e' = false.
Proof.
  intros Hi Hop. destruct op as [o| | | | | | |o l| |]; cbn [step].
  - destruct o; [eexists; split; [done|]; simpl; done ..|].
    by destruct Hop.
  - eexists. split; [done|]. unfold cleanup. by destruct (tess_api_ e).
  - rewrite extractText_uninitialized by done. eauto.
  - rewrite extractTextFromMat_uninitialized by done. eauto.
  - unfold analyzeDocument. destruct (mat_empty _); [eauto|].
    rewrite analyzeDocumentFromMat_uninitialized by done. eauto.
  - rewrite analyzeDocumentFromMat_uninitialized by done. eauto.
  - rewrite processBatch_uninitialized by done. eauto.
  - eexists. split; [done|]. unfold setLanguage. cbn [with_language initialized_].
    by rewrite Hi.
  - eauto.
  - eauto.
Qed.

Lemma run_uninitialized ops e :
  initialized_ e = false -> Forall (fun op => ~ successful_initialize op) ops ->
  exists e', run ops e = Some e' /\ initialized_ e' = false.
Proof.
  intros Hi Hops. revert e Hi. induction Hops as [|op ops Hop Hops IH]; intros e Hi.
  - eauto.
  - destruct (step_uninitialized op e Hi Hop) as (e1 & Hs & Hi1).
    cbn [run]. rewrite Hs. simpl. by apply IH.
Qed.

(** C7. [setLanguage] on an initialized engine ends the native context and
    then initializes a new one with the new language (unless the new
    context cannot even be allocated).  When that
    initialization does not succeed the engine is left uninitialized, and
    after any further calls none of which is a successful [initialize],
    [extractTextFromMat] and [extractText] return the zero-valued result
    and leave the engine as it is, so nothing is handed to the recognizer;
    a later successful [initialize] sets the flag again. *)
Theorem setLanguage_reinitializes o language e api :
  initialized_ e = true ->
  tess_api_ e = Some api ->
  let e1 := setLanguage o language e in
  language_ e1 = language /\
  (exists calls,
     native_calls e1 = (native_calls e ++ CallEnd :: calls)%list /\
     (o = MakeUniqueThrows -> calls = []) /\
     (o <> MakeUniqueThrows ->
      calls = [CallInit language (init_succeeds o)])) /\
  (o = InitZero ->
   initialized_ e1 = true /\
   (api_language <$> tess_api_ e1) = Some (Some language)) /\
  (o <> InitZero ->
   initialized_ e1 = false /\
   forall ops,
     Forall (fun op => ~ successful_initialize op) ops ->
     exists e2,
       run ops e1 = Some e2 /\
       initialized_ e2 = false /\
       (forall image, extractTextFromMat image e2 = Some (OCRResult_zero, e2)) /\
       (forall image_path, extractText image_path e2 = Some (OCRResult_zero, e2)) /\
       (initialize InitZero e2).1 = true /\
       initialized_ (initialize InitZero e2).2 = true).
Proof.
  intros Hi Ha. cbv zeta.
  assert (setLanguage o language e =
          (initialize o (with_initialized false (with_api None
             (record_call CallEnd (with_language language e))))).2) as ->.
  { unfold setLanguage. cbn [with_language initialized_]. rewrite Hi.
    unfold cleanup. cbn [with_language tess_api_]. by rewrite Ha. }
  split; [by destruct o|]. split.
  { exists (match o with
            | MakeUniqueThrows => []
            | _ => [CallInit language (init_succeeds o)]
            end).
    destruct o; simpl; rewrite <- ?app_assoc; (split; [done|]); split; done. }
  split; [by intros ->|]. intros Ho.
  match goal with |- initialized_ ?e1 = false /\ _ =>
    assert (initialized_ e1 = false) as Hi1 by (by destruct o) end.
  split; [done|]. intros ops Hops.
  destruct (run_uninitialized ops _ Hi1 Hops) as (e2 & Hrun & Hi2).
  exists e2. split; [done|]. split; [done|].
  split; [intros image; by apply extractTextFromMat_uninitialized|].
  split; [intros p; by apply extractText_uninitialized|]. done.
Qed.

End LifecycleFacts.

(** ** The confidence threshold *)

Section ThresholdFacts.
Context `{cv : OpenCV} `{lept : Leptonica} `{tess : !Tesseract}.

Lemma extractTextFromMat_threshold t image e :
  extractTextFromMat image (setConfidenceThreshold t e) =
  move_threshold t (extractTextFromMat image e).
Proof.
  unfold extractTextFromMat, to_gray, move_threshold.
  cbn [setConfidenceThreshold initialized_ preprocessing_enabled_ tess_api_].
  destruct (initialized_ e); [|done]. cbn [negb].
  destruct (preprocessing_enabled_ e).
  - destruct (preprocessImage image ≫= _) as [gray|]; [|done].
    destruct (pixCreate _ _ _) as [pix|]; [|done].
    by destruct (tess_api_ e).
  - destruct (Normal image ≫= _) as [gray|]; [|done].
    destruct (pixCreate _ _ _) as [pix|]; [|done].
    by destruct (tess_api_ e).
Qed.

Lemma extractText_threshold t image_path e :
  extractText image_path (setConfidenceThreshold t e) =
  move_threshold t (extractText image_path e).
Proof.
  unfold extractText. destruct (mat_empty _); [done|].
  apply extractTextFromMat_threshold.
Qed.

Lemma analyzeDocumentFromMat_threshold t image e :
  analyzeDocumentFromMat image (setConfidenceThreshold t e) =
  move_threshold t (analyzeDocumentFromMat image e).
Proof.
  unfold analyzeDocumentFromMat. rewrite extractTextFromMat_threshold.
  unfold move_threshold. by destruct (extractTextFromMat image e) as [[r e']|].
Qed.

Lemma analyzeDocument_threshold t image_path e :
  analyzeDocument image_path (setConfidenceThreshold t e) =
  move_threshold t (analyzeDocument image_path e).
Proof.
  unfold analyzeDocument. destruct (mat_empty _); [done|].
  apply analyzeDocumentFromMat_threshold.
Qed.

Lemma processBatch_threshold t image_paths e :
  processBatch image_paths (setConfidenceThreshold t e) =
  move_threshold t (processBatch image_paths e).
Proof.
  revert e. induction image_paths as [|p ps IH]; intros e; [done|].
  cbn [processBatch]. rewrite extractText_threshold. unfold move_threshold.
  destruct (extractText p e) as [[r e1]|]; [|done]. simpl.
  rewrite IH. unfold move_threshold.
  by destruct (processBatch ps e1) as [[rs e2]|].
Qed.

Lemma move_threshold_agree {A} t1 t2 (x : option (A * OCREngine)) :
  agree (move_threshold t1 x) (move_threshold t2 x).
Proof. by destruct x as [[a e]|]. Qed.

(** C9. No recognition or analysis call reads [confidence_threshold_]:
    after [setConfidenceThreshold] with either of two values,
    [extractText], [extractTextFromMat], [analyzeDocument],
    [analyzeDocumentFromMat] and [processBatch] return the same value, and
    the engines they leave differ at most in the threshold. *)
Theorem confidence_threshold_never_read t1 t2 e :
  (forall image_path,
     agree (extractText image_path (setConfidenceThreshold t1 e))
           (extractText image_path (setConfidenceThreshold t2 e))) /\
  (forall image,
     agree (extractTextFromMat image (setConfidenceThreshold t1 e))
           (extractTextFromMat image (setConfidenceThreshold t2 e))) /\
  (forall image_path,
     agree (analyzeDocument image_path (setConfidenceThreshold t1 e))
           (analyzeDocument image_path (setConfidenceThreshold t2 e))) /\
  (forall image,
     agree (analyzeDocumentFromMat image (setConfidenceThreshold t1 e))
           (analyzeDocumentFromMat image (setConfidenceThreshold t2 e))) /\
  (forall image_paths,
     agree (processBatch image_paths (setConfidenceThreshold t1 e))
           (processBatch image_paths (setConfidenceThreshold t2 e))).
Proof.
  repeat split; intros x.
  - rewrite !extractText_threshold. apply move_threshold_agree.
  - rewrite !extractTextFromMat_threshold. apply move_threshold_agree.
  - rewrite !analyzeDocument_threshold. apply move_threshold_agree.
  - rewrite !analyzeDocumentFromMat_threshold. apply move_threshold_agree.
  - rewrite !processBatch_threshold. apply move_threshold_agree.
Qed.

End ThresholdFacts.

(** ** Batches *)

Lemma sum_confidences rs qs acc :
  confidence <$> rs = Val <$> qs ->
  exists a,
    foldl (fun sum result => double_add sum (confidence result)) (Val acc) rs = Val a /\
    (a == acc + Qsum qs)%Q.
Proof.
  revert qs acc. induction rs as [|r rs IH]; intros qs acc Hc.
  - destruct qs; [|done]. exists acc. split; [done|]. simpl. ring.
  - destruct qs as [|q qs]; [done|]. injection Hc as Hr Hrs.
    cbn [foldl]. rewrite Hr. cbn [double_add].
    destruct (IH qs (acc + q)%Q Hrs) as (a & -> & Ha).
    exists a. split; [done|]. rewrite Ha. simpl. ring.
Qed.

Section BatchFacts.
Context `{cv : OpenCV} `{lept : Leptonica} `{tess : !Tesseract}.

Lemma same_recognizer_refl e : same_recognizer e e.
Proof. done. Qed.

Lemma same_recognizer_trans e1 e2 e3 :
  same_recognizer e1 e2 -> same_recognizer e2 e3 -> same_recognizer e1 e3.
Proof. intros (? & ? & ?) (? & ? & ?). repeat split; congruence. Qed.

Lemma same_recognizer_wf e1 e2 : same_recognizer e1 e2 -> wf e1 -> wf e2.
Proof.
  intros (Hi & _ & Ha) Hwf Hi2. rewrite <- Hi in Hi2.
  destruct (Hwf Hi2) as [a Ha1]. rewrite Ha1 in Ha.
  destruct (tess_api_ e2); [done | discriminate].
Qed.

Lemma extractTextFromMat_keeps image e r e' :
  extractTextFromMat image e = Some (r, e') -> same_recognizer e e'.
Proof.
  unfold extractTextFromMat. destruct (initialized_ e) eqn:Hi; simpl.
  - destruct (to_gray image e) as [gray|]; [|by intros [= <- <-]].
    destruct (pixCreate _ _ _) as [pix|]; [|by intros [= <- <-]].
    destruct (tess_api_ e) as [api|] eqn:Ha; [|done]. simpl. intros [= <- <-].
    unfold same_recognizer. simpl. by rewrite Hi, Ha.
  - by intros [= <- <-].
Qed.

Lemma extractText_keeps image_path e r e' :
  extractText image_path e = Some (r, e') -> same_recognizer e e'.
Proof.
  unfold extractText. destruct (mat_empty _); [by intros [= <- <-]|].
  apply extractTextFromMat_keeps.
Qed.

Lemma recognition_cut_short_same image e1 e2 :
  same_recognizer e1 e2 ->
  recognition_cut_short image e1 -> recognition_cut_short image e2.
Proof.
  intros (_ & Hp & _). unfold recognition_cut_short, to_gray. by rewrite Hp.
Qed.

(** A readable image whose recognition is cut short on an initialized
    engine gives the local [OCRResult result;] and leaves the engine. *)
Lemma extractText_cut_short_default image_path e :
  mat_empty (imread image_path) = false ->
  initialized_ e = true ->
  recognition_cut_short (imread image_path) e ->
  extractText image_path e = Some (OCRResult_default, e).
Proof.
  intros Hr Hi Hcut. unfold extractText, extractTextFromMat. rewrite Hr, Hi. simpl.
  destruct Hcut as [-> | (gray & -> & ->)]; done.
Qed.

Lemma item_fails_keeps_engine image_path e r e' :
  item_fails image_path e ->
  extractText image_path e = Some (r, e') -> e' = e.
Proof.
  intros Hf Hx.
  destruct (mat_empty (imread image_path)) eqn:Hr.
  { unfold extractText in Hx. rewrite Hr in Hx. by injection Hx as _ <-. }
  destruct (initialized_ e) eqn:Hi.
  - destruct Hf as [Hf|[Hf|Hf]]; [congruence | congruence |].
    rewrite (extractText_cut_short_default _ _ Hr Hi Hf) in Hx. by injection Hx as _ <-.
  - rewrite (extractText_uninitialized _ _ Hi) in Hx. by injection Hx as _ <-.
Qed.

Lemma processBatch_app ps qs e :
  processBatch (ps ++ qs) e =
  '(rs1, e1) ← processBatch ps e;
  '(rs2, e2) ← processBatch qs e1;
  Some ((rs1 ++ rs2)%list, e2).
Proof.
  revert e. induction ps as [|p ps IH]; intros e.
  - cbn [app processBatch]. simpl. by destruct (processBatch qs e) as [[rs2 e2]|].
  - cbn [app processBatch]. destruct (extractText p e) as [[r e1]|]; [|done]. simpl.
    rewrite IH. destruct (processBatch ps e1) as [[rs1 e2]|]; [|done]. simpl.
    by destruct (processBatch qs e2) as [[rs2 e3]|].
Qed.

(** A batch returns, with one result per path, and leaves the switches
    and the configuration of the native context as they were. *)
Lemma processBatch_total image_paths e :
  wf e ->
  exists results e',
    processBatch image_paths e = Some (results, e') /\
    same_recognizer e e' /\
    length results = length image_paths.
Proof.
  revert e. induction image_paths as [|p ps IH]; intros e Hwf.
  - exists [], e. done.
  - destruct (extractText_total p e Hwf) as [[r e1] Hx].
    pose proof (extractText_keeps _ _ _ _ Hx) as H1.
    destruct (IH e1 (same_recognizer_wf _ _ H1 Hwf)) as (rs & e2 & Hb & H2 & Hlen).
    exists (r :: rs), e2. cbn [processBatch]. rewrite Hx. simpl. rewrite Hb. simpl.
    split; [done|]. split; [by eapply same_recognizer_trans | by rewrite Hlen].
Qed.

(** The slot of a path holds what [extractText] returns for it on the
    engine that the paths before it left. *)
Lemma processBatch_slot image_paths e results e' i path :
  wf e ->
  processBatch image_paths e = Some (results, e') ->
  image_paths !! i = Some path ->
  exists ei r ei',
    processBatch (take i image_paths) e = Some (take i results, ei) /\
    same_recognizer e ei /\
    extractText path ei = Some (r, ei') /\
    results !! i = Some r.
Proof.
  intros Hwf Hb Hi.
  pose proof (take_drop_middle _ _ _ Hi) as Hsplit.
  destruct (processBatch_total (take i image_paths) e Hwf)
    as (before & ei & Hbefore & Hsame & Hlen).
  rewrite <- Hsplit, processBatch_app, Hbefore in Hb. simpl in Hb.
  destruct (extractText path ei) as [[r ei']|] eqn:Hx; [|done]. simpl in Hb.
  destruct (processBatch (drop (S i) image_paths) ei') as [[rest e'']|]; [|done].
  simpl in Hb. injection Hb as <- <-.
  assert (length before = i) as Hi'.
  { rewrite Hlen, length_take. apply lookup_lt_Some in Hi. lia. }
  exists ei, r, ei'. split; [|split; [done|split; [done|]]].
  - rewrite take_app_length' by done. done.
  - rewrite lookup_app_r by lia. by rewrite Hi', Nat.sub_diag.
Qed.

Lemma sum_indeterminate rs :
  foldl (fun sum result => double_add sum (confidence result)) Indeterminate rs =
  Indeterminate.
Proof. induction rs as [|r rs IH]; [done | exact IH]. Qed.

Lemma sum_with_indeterminate rs acc :
  Indeterminate ∈ confidence <$> rs ->
  foldl (fun sum result => double_add sum (confidence result)) acc rs = Indeterminate.
Proof.
  revert acc. induction rs as [|r rs IH]; intros acc Hin.
  - by apply elem_of_nil in Hin.
  - cbn [foldl]. rewrite fmap_cons in Hin. apply elem_of_cons in Hin as [Hr|Hin].
    + rewrite <- Hr. destruct acc; apply sum_indeterminate.
    + by apply IH.
Qed.

Lemma average_indeterminate rs :
  Indeterminate ∈ confidence <$> rs -> average_confidence rs = Indeterminate.
Proof.
  intros Hin. unfold average_confidence. destruct rs as [|r rs].
  - by apply elem_of_nil in Hin.
  - by rewrite (sum_with_indeterminate _ _ Hin).
Qed.

(** C6. On an engine in a defined state, [processBatch] returns as many
    results as it is given paths, the result at each index being the one
    [extractText] returns for the path at that index on the engine that
    the paths before it left.  The slot of a path that cannot be read, and
    every slot when the engine is not initialized, holds the zero-valued
    result [OCRResult{}].  The slot of a readable image whose recognition
    is cut short on an initialized engine does not: it holds the local
    [OCRResult result;], whose confidence was never given a value, and the
    average computed from a batch with such a slot has no value either.
    The average is 0 for no result and, for results that all carry a
    confidence, the sum of the confidences divided by their number: 70
    for 80 and 60. *)
Theorem processBatch_one_result_per_path image_paths e :
  wf e ->
  (exists results e',
     processBatch image_paths e = Some (results, e') /\
     length results = length image_paths /\
     (forall i path, image_paths !! i = Some path ->
        exists ei r ei',
          processBatch (take i image_paths) e = Some (take i results, ei) /\
          extractText path ei = Some (r, ei') /\ results !! i = Some r) /\
     (forall i path, image_paths !! i = Some path ->
        mat_empty (imread path) = true -> results !! i = Some OCRResult_zero) /\
     (initialized_ e = false ->
      forall i path, image_paths !! i = Some path -> results !! i = Some OCRResult_zero) /\
     (forall i path, image_paths !! i = Some path ->
        mat_empty (imread path) = false -> initialized_ e = true ->
        recognition_cut_short (imread path) e ->
        results !! i = Some OCRResult_default /\
        average_confidence results = Indeterminate)) /\
  OCRResult_default <> OCRResult_zero /\
  average_confidence [] = Val 0 /\
  (forall rs qs, rs <> [] -> confidence <$> rs = Val <$> qs ->
     exists a, average_confidence rs = Val a /\
               (a == Qsum qs / inject_Z (Z.of_nat (length rs)))%Q) /\
  (forall rs, Indeterminate ∈ confidence <$> rs ->
     average_confidence rs = Indeterminate) /\
  (forall r1 r2, confidence r1 = Val 80 -> confidence r2 = Val 60 ->
     exists a, average_confidence [r1; r2] = Val a /\ (a == 70)%Q).
Proof.
  intros Hwf. split; [|split; [done|split; [done|split; [|split]]]].
  - destruct (processBatch_total image_paths e Hwf) as (rs & e' & Hb & _ & Hlen).
    exists rs, e'. split; [done|]. split; [done|].
    assert (forall i path, image_paths !! i = Some path ->
              exists ei r ei',
                processBatch (take i image_paths) e = Some (take i rs, ei) /\
                same_recognizer e ei /\
                extractText path ei = Some (r, ei') /\ rs !! i = Some r) as Hslot
      by (intros i path Hi; by eapply processBatch_slot).
    split; [|split; [|split]].
    + intros i path Hi. destruct (Hslot i path Hi) as (ei & r & ei' & ? & _ & ? & ?).
      by exists ei, r, ei'.
    + intros i path Hi Hempty.
      destruct (Hslot i path Hi) as (ei & r & ei' & _ & _ & Hx & ->).
      unfold extractText in Hx. rewrite Hempty in Hx. by injection Hx as <- _.
    + intros Hinit i path Hi.
      destruct (Hslot i path Hi) as (ei & r & ei' & _ & (Hsi & _) & Hx & ->).
      rewrite extractText_uninitialized in Hx by congruence. by injection Hx as <- _.
    + intros i path Hi Hr Hinit Hcut.
      destruct (Hslot i path Hi) as (ei & r & ei' & _ & Hsame & Hx & Hri).
      rewrite extractText_cut_short_default in Hx;
        [| done | destruct Hsame as (Hsi & _); congruence
         | by eapply recognition_cut_short_same].
      injection Hx as <- _. split; [done|].
      apply average_indeterminate, list_elem_of_fmap.
      exists OCRResult_default. split; [done|]. by eapply list_elem_of_lookup_2.
  - intros rs qs Hne Hc. unfold average_confidence.
    destruct (sum_confidences rs qs 0 Hc) as (a & Ha & Hsum).
    destruct rs as [|r rs]; [done|]. rewrite Ha. cbn [double_div].
    eexists. split; [done|]. rewrite Hsum. by rewrite Qplus_0_l.
  - apply average_indeterminate.
  - intros r1 r2 H1 H2. unfold average_confidence. cbn [foldl].
    rewrite H1, H2. simpl. eexists. split; [done|]. reflexivity.
Qed.

End BatchFacts.

(** ** The engines a program can hold *)

Section ReachabilityFacts.
Context `{cv : OpenCV} `{lept : Leptonica} `{tess : !Tesseract}.

Lemma initialize_wf o e : wf e -> wf (initialize o e).2.
Proof.
  intros Hwf. destruct o; [done | | |]; intros _; simpl; eauto.
Qed.

Lemma cleanup_wf e : wf (cleanup e).
Proof. unfold cleanup. by destruct (tess_api_ e). Qed.

Lemma analyzeDocumentFromMat_keeps image e info e' :
  analyzeDocumentFromMat image e = Some (info, e') -> same_recognizer e e'.
Proof.
  unfold analyzeDocumentFromMat.
  destruct (extractTextFromMat image e) as [[r e1]|] eqn:Hx; [|done].
  simpl. intros [= _ <-]. by eapply extractTextFromMat_keeps.
Qed.

Lemma step_wf op e e' : wf e -> step op e = Some e' -> wf e'.
Proof.
  intros Hwf. destruct op as [o| |p|m|p|m|ps|o l|t|b]; cbn [step].
  - intros [= <-]. by apply initialize_wf.
  - intros [= <-]. apply cleanup_wf.
  - destruct (extractText p e) as [[r e1]|] eqn:Hx; [|done]. intros [= <-].
    eapply same_recognizer_wf; [by eapply extractText_keeps | done].
  - destruct (extractTextFromMat m e) as [[r e1]|] eqn:Hx; [|done]. intros [= <-].
    eapply same_recognizer_wf; [by eapply extractTextFromMat_keeps | done].
  - unfold analyzeDocument. destruct (mat_empty _); [by intros [= <-]|].
    destruct (analyzeDocumentFromMat _ e) as [[i e1]|] eqn:Hx; [|done]. intros [= <-].
    eapply same_recognizer_wf; [by eapply analyzeDocumentFromMat_keeps | done].
  - destruct (analyzeDocumentFromMat m e) as [[i e1]|] eqn:Hx; [|done]. intros [= <-].
    eapply same_recognizer_wf; [by eapply analyzeDocumentFromMat_keeps | done].
  - destruct (processBatch_total ps e Hwf) as (rs & e1 & -> & Hsame & _).
    intros [= <-]. by eapply same_recognizer_wf.
  - intros [= <-]. unfold setLanguage. destruct (initialized_ _) eqn:Hi.
    + apply initialize_wf, cleanup_wf.
    + intros Hi'. cbn [with_language initialized_] in Hi, Hi'. congruence.
  - by intros [= <-].
  - by intros [= <-].
Qed.

Lemma run_wf ops e e' : wf e -> run ops e = Some e' -> wf e'.
Proof.
  revert e. induction ops as [|op ops IH]; intros e Hwf; cbn [run].
  - by intros [= <-].
  - destruct (step op e) as [e1|] eqn:Hs; [|done]. simpl.
    apply IH. by eapply step_wf.
Qed.

Lemma reachable_wf e : reachable e -> wf e.
Proof.
  intros [ops Hrun]. eapply run_wf; [|exact Hrun]. intros Hi. discriminate.
Qed.

(** C1. Whatever the image and the state of the engine, in a result of
    [extractTextFromMat] or [extractText] the sequences [words],
    [word_confidences] and [bounding_boxes] have one length, and their
    entries at one index are the text, the confidence and the box of one
    word-level segment of the recognizer.  Every engine a program can
    hold has a native context whenever its [initialized_] flag is set,
    and on such an engine both calls return. *)
Theorem word_sequences_parallel :
  (forall image e r e',
     extractTextFromMat image e = Some (r, e') ->
     length (words r) = length (word_confidences r) /\
     length (word_confidences r) = length (bounding_boxes r) /\
     exists entries,
       words_aligned r entries /\
       (entries = [] \/
        exists api, tess_api_ e' = Some api /\ entries = segments (GetIterator api))) /\
  (forall image_path e r e',
     extractText image_path e = Some (r, e') ->
     length (words r) = length (word_confidences r) /\
     length (word_confidences r) = length (bounding_boxes r) /\
     exists entries,
       words_aligned r entries /\
       (entries = [] \/
        exists api, tess_api_ e' = Some api /\ entries = segments (GetIterator api))) /\
  (forall e, reachable e -> wf e) /\
  (forall image image_path e,
     wf e ->
     is_Some (extractTextFromMat image e) /\ is_Some (extractText image_path e)).
Proof.
  split; [|split; [|split; [apply reachable_wf|]]].
  - intros image e r e' Hx. apply extractTextFromMat_cases in Hx.
    destruct (cases_aligned r e e' Hx) as (entries & Hal & Hor).
    destruct (words_aligned_lengths r entries Hal). eauto 6.
  - intros image_path e r e' Hx. apply extractText_cases in Hx.
    destruct (cases_aligned r e e' Hx) as (entries & Hal & Hor).
    destruct (words_aligned_lengths r entries Hal). eauto 6.
  - intros image image_path e Hwf.
    split; [by apply extractTextFromMat_total | by apply extractText_total].
Qed.

End ReachabilityFacts.

(** ** The statements at concrete inputs *)

Section Witnesses.
Import Demo.

Lemma document_type_first_matching_group_witness :
  exists r e',
    extractTextFromMat invoice_page plain = Some (r, e') /\
    text r <> "" /\
    exists info,
      analyzeDocumentFromMat invoice_page plain = Some (info, e') /\
      document_type info = "invoice".
Proof.
  eexists _, _. split; [vm_compute; reflexivity|]. split; [discriminate|].
  edestruct (document_type_first_matching_group invoice_page plain)
    as (info & Ha & Hrules & _); [vm_compute; reflexivity | discriminate |].
  exists info. split; [exact Ha|]. rewrite Hrules. vm_compute. reflexivity.
Defined.

Lemma empty_text_gives_empty_info_witness :
  extractTextFromMat total_page OCREngine_new = Some (OCRResult_zero, OCREngine_new) /\
  text OCRResult_zero = "" /\
  mat_empty total_page = false /\
  exists info,
    analyzeDocument "Total: 5" OCREngine_new = Some (info, OCREngine_new) /\
    document_type info = "" /\ detected_fields info = [] /\ extracted_data info = ∅ /\
    overall_confidence info = Indeterminate /\
    info <> DocumentInfo_zero.
Proof.
  split; [reflexivity|]. split; [reflexivity|]. split; [reflexivity|].
  destruct (proj1 (empty_text_gives_empty_info total_page OCREngine_new OCRResult_zero
                     OCREngine_new eq_refl eq_refl))
    as (info & _ & Hp & _ & Ht & Hf & Hd & Hc & Hz).
  exists info. split; [apply Hp; reflexivity|]. auto.
Defined.

Lemma field_extraction_witness :
  exists r e',
    extractTextFromMat fields_page plain = Some (r, e') /\
    text r <> "" /\
    exists info,
      analyzeDocumentFromMat fields_page plain = Some (info, e') /\
      detected_fields info = ["date"; "total"] /\
      extracted_data info !! "total" = Some "$450.00" /\
      extracted_data info !! "date" = Some "2024-01-05" /\
      extracted_data info !! "amount" = None.
Proof.
  eexists _, _. split; [vm_compute; reflexivity|]. split; [discriminate|].
  edestruct (field_extraction_first_match_in_list_order fields_page plain)
    as (info & Ha & _ & Hdet & Hdata & _); [vm_compute; reflexivity | discriminate |].
  exists info. split; [exact Ha|]. rewrite Hdet, !Hdata.
  repeat split; vm_compute; reflexivity.
Defined.

Lemma word_sequences_parallel_witness :
  exists r e',
    extractTextFromMat total_page plain = Some (r, e') /\
    words r = ["Total: 5"] /\
    length (words r) = length (word_confidences r) /\
    length (word_confidences r) = length (bounding_boxes r).
Proof.
  eexists _, _. split; [vm_compute; reflexivity|]. split; [reflexivity|].
  edestruct (proj1 word_sequences_parallel total_page plain)
    as (H1 & H2 & _); [vm_compute; reflexivity|].
  split; [exact H1 | exact H2].
Defined.

Lemma extractTextFromMat_pipeline_witness :
  initialized_ plain = true /\
  exists r e',
    extractTextFromMat total_page plain = Some (r, e') /\
    text r = "Total: 5" /\
    confidence r = Val 80 /\
    words r = ["Total: 5"] /\
    bounding_boxes r = [mkRect 2 3 8 1].
Proof.
  split; [reflexivity|].
  edestruct (extractTextFromMat_pipeline total_page plain)
    as (r & e' & Hx & _ & _ & Ht & Hc & Hw & _ & Hb);
    [reflexivity | reflexivity | reflexivity | reflexivity | reflexivity |].
  exists r, e'. split; [exact Hx|]. rewrite Ht, Hc, Hw, Hb.
  repeat split; vm_compute; reflexivity.
Defined.

Lemma demo_channels : ChannelContract (H := Demo.cv).
Proof.
  split; simpl; unfold gray_only.
  - intros m g. destruct (Z.eqb_spec (chans m) 3), (Z.eqb_spec (chans m) 4);
      simpl; try done; intros [= <-]; auto.
  - intros m m'. destruct (Z.eqb (chans m) 1); [by intros [= <-] | done].
  - intros m ? ? ? ? ? m'. destruct (Z.eqb (chans m) 1); [by intros [= <-] | done].
  - intros m ? ? m' H. by injection H as <-.
  - intros m ? ? m' H. by injection H as <-.
  - intros m ? ? m' H. by injection H as <-.
Qed.

Lemma preprocessed_image_never_recognized_witness :
  initialized_ fresh = true /\
  preprocessing_enabled_ fresh = true /\
  mat_channels total_page = 3 /\
  extractTextFromMat total_page fresh = Some (OCRResult_default, fresh) /\
  (exists r e', extractTextFromMat total_page plain = Some (r, e') /\ text r = "Total: 5").
Proof.
  split; [reflexivity|]. split; [reflexivity|]. split; [reflexivity|]. split.
  - apply (preprocessed_image_never_recognized (Hch := demo_channels) total_page fresh);
      reflexivity.
  - eexists _, _. split; vm_compute; reflexivity.
Defined.

Lemma caught_exception_slot_not_zero :
  exists results e',
    processBatch ["Total: 5"] fresh = Some (results, e') /\
    mat_empty (imread "Total: 5") = false /\
    recognition_cut_short (imread "Total: 5") fresh /\
    length results = 1%nat /\
    results !! 0%nat <> Some OCRResult_zero.
Proof.
  exists [OCRResult_default], fresh.
  split; [vm_compute; reflexivity|]. split; [reflexivity|].
  split; [left; vm_compute; reflexivity|]. split; [reflexivity|].
  simpl. intros H. discriminate H.
Qed.

Lemma deskew_angle_policy_witness :
  findContours skewed_page RETR_EXTERNAL CHAIN_APPROX_SIMPLE = Normal [(-50)%Q] /\
  deskewImage skewed_page =
  warpAffine skewed_page (getRotationMatrix2D (3 / 2, 1 / 2)%Q 40%Q 1) (3, 1).
Proof.
  split; [reflexivity|].
  destruct (proj1 (proj2 (deskew_angle_policy skewed_page)) [(-50)%Q] eq_refl)
    as (c & Hin & _ & _ & Hrot); [discriminate|].
  apply list_elem_of_singleton in Hin. subst c.
  rewrite Hrot; [reflexivity|]. vm_compute. reflexivity.
Defined.

Lemma processBatch_one_result_per_path_witness :
  wf fresh /\
  exists results e',
    processBatch ["Total: 5"; ""] fresh = Some (results, e') /\
    length results = 2%nat /\
    results !! 0%nat = Some OCRResult_default /\
    results !! 1%nat = Some OCRResult_zero /\
    average_confidence results = Indeterminate.
Proof.
  assert (wf fresh) as Hwf by (intros _; eexists; reflexivity).
  split; [exact Hwf|].
  destruct (proj1 (processBatch_one_result_per_path ["Total: 5"; ""] fresh Hwf))
    as (results & e' & Hb & Hlen & _ & Hzero & _ & Hcut).
  exists results, e'. split; [exact Hb|]. split; [exact Hlen|].
  destruct (Hcut 0%nat "Total: 5") as [Hslot Havg];
    [reflexivity | reflexivity | reflexivity | left; vm_compute; reflexivity |].
  split; [exact Hslot|]. split; [|exact Havg].
  apply (Hzero 1%nat ""); reflexivity.
Defined.

Lemma setLanguage_reinitializes_witness :
  initialized_ fresh = true /\
  let e1 := setLanguage InitNonZero "deu" fresh in
  language_ e1 = "deu" /\
  initialized_ e1 = false /\
  extractText "page" e1 = Some (OCRResult_zero, e1).
Proof.
  split; [reflexivity|]. cbv zeta.
  edestruct (setLanguage_reinitializes InitNonZero "deu" fresh)
    as (Hl & _ & _ & Hfail); [reflexivity | reflexivity |].
  destruct Hfail as (Hi & Hafter); [discriminate|].
  destruct (Hafter [] (Forall_nil_2 _)) as (e2 & Hrun & _ & _ & Hx & _).
  injection Hrun as <-. split; [exact Hl|]. split; [exact Hi|]. apply Hx.
Defined.

Lemma setLanguage_uninitialized_witness :
  initialized_ OCREngine_new = false /\
  let e' := setLanguage InitZero "deu" OCREngine_new in
  language_ e' = "deu" /\ native_calls e' = [] /\ tess_api_ e' = None /\
  initialized_ e' = false.
Proof.
  split; [reflexivity|]. cbv zeta.
  destruct (setLanguage_uninitialized_only_stores InitZero "deu" OCREngine_new eq_refl)
    as (Hl & Hc & Ha & _ & _ & Hi).
  auto.
Defined.

End Witnesses.

(** * Further properties of the code *)

(** ** What the analysis returns *)



Section AnalysisFacts.
Context `{cv : OpenCV} `{lept : Leptonica} `{tess : !Tesseract}.


End AnalysisFacts.

(** ** A failed [initialize] on an initialized engine *)

Section ReinitializeFacts.
Context `{cv : OpenCV} `{lept : Leptonica} `{tess : !Tesseract}.


End ReinitializeFacts.

(** ** The calls on the native context follow its protocol *)

Section ProtocolFacts.
Context `{cv : OpenCV} `{lept : Leptonica} `{tess : !Tesseract}.

Lemma protocol_run_app st calls c :
  protocol_run st (calls ++ [c]) = st' ← protocol_run st calls; protocol_step st' c.
Proof.
  revert st. induction calls as [|d calls IH]; intros st; simpl.
  - by destruct (protocol_step st c).
  - destruct (protocol_step st d) as [st1|]; simpl; [apply IH | done].
Qed.

Lemma initialize_tracks o e st :
  tracks e st -> exists st', tracks (initialize o e).2 st'.
Proof.
  intros (Hrun & Hctx & Hinit). destruct o; simpl.
  - exists st. done.
  - exists {| context := FailedContext; ever_ready := ever_ready st |}.
    split; [cbn; by rewrite protocol_run_app, Hrun|].
    split; [done|]. cbn. intros Hi. split; [by apply Hinit | done].
  - exists {| context := FailedContext; ever_ready := ever_ready st |}.
    split; [cbn; by rewrite protocol_run_app, Hrun|].
    split; [done|]. cbn. intros Hi. split; [by apply Hinit | done].
  - exists {| context := ReadyContext; ever_ready := true |}.
    split; [cbn; by rewrite protocol_run_app, Hrun|]. done.
Qed.

Lemma cleanup_tracks e st :
  tracks e st -> exists st', tracks (cleanup e) st'.
Proof.
  intros (Hrun & Hctx & Hinit). unfold cleanup.
  destruct (tess_api_ e) as [api|] eqn:Ha.
  - exists {| context := NoContext; ever_ready := ever_ready st |}.
    split.
    + cbn. rewrite protocol_run_app, Hrun. cbn.
      by rewrite (proj2 Hctx (mk_is_Some _ _ eq_refl)).
    + split; [|done]. cbn. split; [done | by intros [? ?]].
  - exists st. split; [done|]. split; [by rewrite <- Ha in Hctx | done].
Qed.

Lemma extractTextFromMat_tracks image e r e' st :
  tracks e st -> extractTextFromMat image e = Some (r, e') -> tracks e' st.
Proof.
  intros Ht. pose proof Ht as (Hrun & Hctx & Hinit). unfold extractTextFromMat.
  destruct (initialized_ e) eqn:Hi; simpl; [|by intros [= _ <-]].
  destruct (to_gray image e) as [gray|]; [|by intros [= _ <-]].
  destruct (pixCreate _ _ _) as [pix|]; [|by intros [= _ <-]].
  destruct (tess_api_ e) as [api|] eqn:Ha; [|done]. simpl. intros [= _ <-].
  destruct (Hinit eq_refl) as [Hever _].
  split.
  - cbn. rewrite protocol_run_app, Hrun. cbn.
    by rewrite (proj2 Hctx (mk_is_Some _ _ eq_refl)), Hever.
  - cbn. rewrite Hi. split; [by rewrite Hctx | done].
Qed.

Lemma extractText_tracks image_path e r e' st :
  tracks e st -> extractText image_path e = Some (r, e') -> tracks e' st.
Proof.
  unfold extractText. destruct (mat_empty _); [by intros ? [= _ <-]|].
  apply extractTextFromMat_tracks.
Qed.

Lemma processBatch_tracks image_paths e rs e' st :
  tracks e st -> processBatch image_paths e = Some (rs, e') -> tracks e' st.
Proof.
  revert e rs. induction image_paths as [|p ps IH]; intros e rs Ht; cbn [processBatch].
  - by intros [= _ <-].
  - destruct (extractText p e) as [[r e1]|] eqn:Hx; [|done]. simpl.
    destruct (processBatch ps e1) as [[rs1 e2]|] eqn:Hb; [|done]. simpl.
    intros [= _ <-]. eapply IH; [|exact Hb]. by eapply extractText_tracks.
Qed.

Lemma analyzeDocumentFromMat_tracks image e info e' st :
  tracks e st -> analyzeDocumentFromMat image e = Some (info, e') -> tracks e' st.
Proof.
  unfold analyzeDocumentFromMat. intros Ht.
  destruct (extractTextFromMat image e) as [[r e1]|] eqn:Hx; [|done]. simpl.
  intros [= _ <-]. by eapply extractTextFromMat_tracks.
Qed.

Lemma step_tracks op e e' st :
  tracks e st -> step op e = Some e' -> exists st', tracks e' st'.
Proof.
  intros Ht. destruct op as [o| |p|m|p|m|ps|o l|t|b]; cbn [step].
  - intros [= <-]. by eapply initialize_tracks.
  - intros [= <-]. by eapply cleanup_tracks.
  - destruct (extractText p e) as [[r e1]|] eqn:Hx; [|done]. intros [= <-].
    exists st. by eapply extractText_tracks.
  - destruct (extractTextFromMat m e) as [[r e1]|] eqn:Hx; [|done]. intros [= <-].
    exists st. by eapply extractTextFromMat_tracks.
  - unfold analyzeDocument. destruct (mat_empty _); [intros [= <-]; eauto|].
    destruct (analyzeDocumentFromMat _ e) as [[i e1]|] eqn:Hx; [|done]. intros [= <-].
    exists st. by eapply analyzeDocumentFromMat_tracks.
  - destruct (analyzeDocumentFromMat m e) as [[i e1]|] eqn:Hx; [|done]. intros [= <-].
    exists st. by eapply analyzeDocumentFromMat_tracks.
  - destruct (processBatch ps e) as [[rs e1]|] eqn:Hx; [|done]. intros [= <-].
    exists st. by eapply processBatch_tracks.
  - intros [= <-]. unfold setLanguage.
    assert (tracks (with_language l e) st) as Htl by exact Ht.
    destruct (initialized_ (with_language l e)); [|eauto].
    destruct (cleanup_tracks _ _ Htl) as [st1 H1]. by eapply initialize_tracks.
  - intros [= <-]. exists st. exact Ht.
  - intros [= <-]. exists st. exact Ht.
Qed.

(** X4. On every engine a program can hold, the calls made on the native
    context follow its protocol: [End] is only called while a context
    exists, and a raster is only handed over while a context exists and
    after some [Init] has succeeded. *)
Theorem native_calls_follow_protocol e :
  reachable e -> follows_protocol (native_calls e).
Proof.
  intros [ops Hrun].
  assert (exists st, tracks e st) as (st & Hst & _); [|by exists st].
  assert (exists st, tracks OCREngine_new st) as H0.
  { exists protocol_start. split; [done|]. split; [|done].
    split; [done | by intros [? ?]]. }
  revert Hrun H0. generalize OCREngine_new as e0. revert e.
  induction ops as [|op ops IH]; intros e e0; cbn [run].
  - by intros [= <-].
  - destruct (step op e0) as [e1|] eqn:Hs; [|done]. simpl. intros Hrun [st0 H0].
    eapply IH; [exact Hrun|]. by eapply step_tracks.
Qed.

End ProtocolFacts.

(** ** Batches compose *)

Section BatchCompositionFacts.
Context `{cv : OpenCV} `{lept : Leptonica} `{tess : !Tesseract}.

(** X5. A batch can be split anywhere, the second part taking over the
    engine the first part leaves: the results for a list of paths
    followed by another are the results for the first list, followed by
    the results for the second list on that engine.  Items that fail (a
    path that cannot be read, an engine that is not initialized, a
    recognition cut short) leave the engine as it was: after a first part
    of failing items only, the second part gives what it gives alone. *)
Theorem processBatch_splits ps qs e :
  wf e ->
  exists rs1 e1 rs2 e2,
    processBatch ps e = Some (rs1, e1) /\
    processBatch qs e1 = Some (rs2, e2) /\
    processBatch (ps ++ qs) e = Some ((rs1 ++ rs2)%list, e2) /\
    length rs1 = length ps /\ length rs2 = length qs /\
    (Forall (fun p => item_fails p e) ps -> e1 = e).
Proof.
  intros Hwf.
  destruct (processBatch_total ps e Hwf) as (rs1 & e1 & Hp & Hs1 & Hlen1).
  pose proof (same_recognizer_wf _ _ Hs1 Hwf) as Hwf1.
  destruct (processBatch_total qs e1 Hwf1) as (rs2 & e2 & Hq & _ & Hlen2).
  exists rs1, e1, rs2, e2. split; [done|]. split; [done|].
  split; [rewrite processBatch_app, Hp; simpl; by rewrite Hq|].
  split; [done|]. split; [done|].
  clear Hq Hlen1 Hlen2 Hs1 Hwf1 Hwf. revert e rs1 e1 Hp.
  induction ps as [|p ps IH]; intros e rs1 e1 Hp Hall.
  - by injection Hp as _ <-.
  - apply Forall_cons in Hall as [Hf Hall]. cbn [processBatch] in Hp.
    destruct (extractText p e) as [[r e0]|] eqn:Hx; [|done]. simpl in Hp.
    pose proof (item_fails_keeps_engine _ _ _ _ Hf Hx) as ->.
    destruct (processBatch ps e) as [[rs e3]|] eqn:Hps; [|done]. simpl in Hp.
    injection Hp as _ <-. by eapply IH.
Qed.

End BatchCompositionFacts.

(** ** The contour that decides the rotation *)

Lemma max_element_first_greatest {A} (area : A -> Q) l c :
  max_element (fun a b => Qltb (area a) (area b)) l = Some c ->
  exists before after,
    l = (before ++ c :: after)%list /\
    Forall (fun x => (area x < area c)%Q) before /\
    Forall (fun x => (area x <= area c)%Q) after.
Proof.
  destruct l as [|x xs]; [done|]. simpl. intros [= <-].
  set (pick := fun largest y => if Qltb (area largest) (area y) then y else largest).
  assert (forall xs x,
            let m := foldl pick x xs in
            (m = x /\ Forall (fun y => (area y <= area x)%Q) xs) \/
            (exists before after,
               xs = (before ++ m :: after)%list /\ (area x < area m)%Q /\
               Forall (fun y => (area y < area m)%Q) before /\
               Forall (fun y => (area y <= area m)%Q) after)) as Hinv.
  { clear. intros xs. induction xs as [|y xs IH]; intros x; cbn [foldl].
    - left. split; [done | constructor].
    - specialize (IH (pick x y)). cbv zeta in IH.
      set (m := foldl pick (pick x y) xs) in *. unfold pick in IH at 1 2 3.
      destruct (Qltb (area x) (area y)) eqn:Hc.
      + apply Qltb_lt in Hc. right.
        destruct IH as [[Hm Hall] | (before & after & Hxs & Hlt & Hb & Ha)].
        * exists [], xs. rewrite Hm. split; [done|]. split; [done|]. split; [constructor | done].
        * exists (y :: before), after. split; [simpl; by f_equal|].
          split; [by eapply Qlt_trans|]. split; [by constructor | done].
      + apply Qltb_ge in Hc.
        destruct IH as [[Hm Hall] | (before & after & Hxs & Hlt & Hb & Ha)].
        * left. split; [done|]. by constructor.
        * right. exists (y :: before), after. split; [simpl; by f_equal|]. split; [done|].
          split; [|done]. constructor; [by eapply Qle_lt_trans | done]. }
  destruct (Hinv xs x) as [[Hm Hall] | (before & after & Hxs & Hlt & Hb & Ha)].
  - exists [], xs. rewrite Hm. split; [done|]. split; [constructor | done].
  - exists (x :: before), after. split; [simpl; by f_equal|].
    split; [by constructor | done].
Qed.

Lemma adjust_angle_range a :
  (-90 <= a)%Q -> (a < 45)%Q ->
  (-45 <= adjust_angle a)%Q /\ (adjust_angle a < 45)%Q.
Proof.
  intros Hlo Hhi. unfold adjust_angle. destruct (Qltb a (-45)) eqn:Hc.
  - apply Qltb_lt in Hc. split; lra.
  - apply Qltb_ge in Hc. done.
Qed.

Section ContourFacts.
Context `{cv : OpenCV}.

(** X6. When contours are found, [deskewImage] decides on the first
    contour of greatest area: every contour before it has a smaller area,
    none after it a greater one.  It rotates by the adjusted angle of
    that contour's rectangle when this exceeds 0.5 in absolute value and
    returns its input otherwise. *)
Theorem deskew_uses_first_largest_contour input contours :
  findContours input RETR_EXTERNAL CHAIN_APPROX_SIMPLE = Normal contours ->
  contours <> [] ->
  exists before c after,
    contours = (before ++ c :: after)%list /\
    Forall (fun x => (contourArea x < contourArea c)%Q) before /\
    Forall (fun x => (contourArea x <= contourArea c)%Q) after /\
    let angle := adjust_angle (minAreaRect_angle c) in
    deskewImage input =
    if Qltb (1 # 2) (Qabs angle)
    then warpAffine input
           (getRotationMatrix2D
              (inject_Z (mat_cols input) / 2, inject_Z (mat_rows input) / 2)%Q angle 1)
           (mat_cols input, mat_rows input)
    else Normal input.
Proof.
  intros Hc Hne. unfold deskewImage. rewrite Hc. simpl.
  rewrite bool_decide_eq_false_2 by done.
  destruct (max_element _ contours) as [c|] eqn:Hmax; [|by destruct contours].
  apply (max_element_first_greatest contourArea) in Hmax
    as (before & after & -> & Hb & Ha).
  exists before, c, after. done.
Qed.

(** X7. The adjustment of the angle keeps it within 45 degrees of level:
    an angle from -90 up to, but not including, 45 is taken into the
    range from -45 up to, but not including, 45, and an angle already in
    that range is left as it is. *)
Theorem adjusted_angle_within_45 a :
  (-90 <= a)%Q -> (a < 45)%Q ->
  (-45 <= adjust_angle a)%Q /\ (adjust_angle a < 45)%Q /\
  adjust_angle (adjust_angle a) = adjust_angle a /\
  ((-45 <= a)%Q -> adjust_angle a = a).
Proof.
  intros Hlo Hhi. destruct (adjust_angle_range a Hlo Hhi) as [H1 H2].
  split; [done|]. split; [done|]. split.
  - unfold adjust_angle at 1. apply Qltb_ge in H1. by rewrite H1.
  - intros H. unfold adjust_angle. apply Qltb_ge in H. by rewrite H.
Qed.

End ContourFacts.

(** ** When the recognizer is reached *)

Section ReachFacts.
Context `{cv : OpenCV} `{lept : Leptonica} `{tess : !Tesseract}.

(** X8. [extractTextFromMat] records a call on the native context only on
    an initialized engine with preprocessing switched off and for an image
    of 3 or 4 channels: in every other case (an image of one channel given
    directly, among them) it returns without handing over a raster, and
    its result has no text and no word. *)
Theorem recognizer_reached_only_without_preprocessing
    `{Hch : !ChannelContract} image e r e' :
  extractTextFromMat image e = Some (r, e') ->
  (native_calls e' <> native_calls e ->
   initialized_ e = true /\ preprocessing_enabled_ e = false /\
   (mat_channels image = 3 \/ mat_channels image = 4)) /\
  (native_calls e' = native_calls e ->
   e' = e /\ text r = "" /\ words r = [] /\ word_confidences r = [] /\
   bounding_boxes r = []).
Proof.
  unfold extractTextFromMat. destruct (initialized_ e) eqn:Hi; simpl.
  2:{ intros [= <- <-]. done. }
  destruct (to_gray image e) as [gray|] eqn:Hg.
  2:{ intros [= <- <-]. done. }
  destruct (pixCreate _ _ _) as [pix|].
  2:{ intros [= <- <-]. done. }
  destruct (tess_api_ e) as [api|]; [|done]. simpl. intros [= <- <-]. split.
  - intros _. split; [done|]. unfold to_gray in Hg.
    destruct (preprocessing_enabled_ e).
    + apply bind_Normal in Hg as (processed & Hpre & Hcvt).
      apply preprocessImage_channels in Hpre. apply cvtColor_channels in Hcvt. lia.
    + simpl in Hg. apply cvtColor_channels in Hg. tauto.
  - cbn [record_call native_calls]. intros Heq.
    apply (f_equal length) in Heq. rewrite length_app in Heq. simpl in Heq. lia.
Qed.

End ReachFacts.

(** ** The raster handed to the recognizer *)

Lemma elem_of_int_range z n : z ∈ int_range n <-> 0 <= z < n.
Proof.
  unfold int_range. rewrite list_elem_of_fmap. split.
  - intros (k & -> & Hk). apply elem_of_seq in Hk. lia.
  - intros Hz. exists (Z.to_nat z). split; [lia|]. apply elem_of_seq. lia.
Qed.

Section RasterFacts.
Context `{cv : OpenCV} `{lept : Leptonica} `{rd : !PixRead} `{acc : !PixAccess}.

Lemma copy_row_byte gray y0 xs pix y x :
  GET_DATA_BYTE
    (foldl (fun pix x => SET_DATA_BYTE pix y0 x (mat_at gray y0 x)) pix xs) y x =
  if decide (y = y0 /\ x ∈ xs) then mat_at gray y x else GET_DATA_BYTE pix y x.
Proof.
  revert pix. induction xs as [|x0 xs IH]; intros pix; cbn [foldl].
  - rewrite decide_False; [done|]. intros [_ H]. by apply elem_of_nil in H.
  - rewrite IH, get_set_byte.
    destruct (decide (y = y0 /\ x ∈ xs)) as [[-> Hin]|Hn].
    + rewrite decide_True; [done|]. split; [done | by apply list_elem_of_further].
    + destruct (decide (y0 = y /\ x0 = x)) as [[<- <-]|Hn'].
      * rewrite decide_True by (split; [done | apply list_elem_of_here]).
        apply Z.mod_small, uchar_range.
      * rewrite decide_False; [done|].
        intros [-> [->|Hin]%elem_of_cons]; [by apply Hn' | by apply Hn].
Qed.

Lemma copy_rows_byte gray xs ys pix y x :
  GET_DATA_BYTE
    (foldl (fun pix y0 =>
              foldl (fun pix x => SET_DATA_BYTE pix y0 x (mat_at gray y0 x)) pix xs)
           pix ys) y x =
  if decide (y ∈ ys /\ x ∈ xs) then mat_at gray y x else GET_DATA_BYTE pix y x.
Proof.
  revert pix. induction ys as [|y0 ys IH]; intros pix; cbn [foldl].
  - rewrite decide_False; [done|]. intros [H _]. by apply elem_of_nil in H.
  - rewrite IH, copy_row_byte.
    destruct (decide (y ∈ ys /\ x ∈ xs)) as [[Hy Hx]|Hn].
    + rewrite decide_True; [done|]. split; [by apply list_elem_of_further | done].
    + destruct (decide (y = y0 /\ x ∈ xs)) as [[-> Hx]|Hn'].
      * rewrite decide_True; [done|]. split; [apply list_elem_of_here | done].
      * rewrite decide_False; [done|].
        intros [[->|Hy]%elem_of_cons Hx]; [by apply Hn' | by apply Hn].
Qed.

(** X9. The two loops copy the whole image: after them the raster holds,
    at every line and column inside the image, the byte of the image at
    that place, and every byte outside is as [pixCreate] left it. *)
Theorem raster_copy_transfers_every_pixel gray pix y x :
  GET_DATA_BYTE (copy_to_pix gray pix) y x =
  if decide (0 <= y < mat_rows gray /\ 0 <= x < mat_cols gray)
  then mat_at gray y x
  else GET_DATA_BYTE pix y x.
Proof.
  unfold copy_to_pix. rewrite copy_rows_byte.
  destruct (decide (y ∈ int_range (mat_rows gray) /\ x ∈ int_range (mat_cols gray)))
    as [[Hy Hx]|Hn].
  - apply elem_of_int_range in Hy, Hx. by rewrite decide_True.
  - rewrite decide_False; [done|]. intros [Hy Hx]. apply Hn.
    by rewrite !elem_of_int_range.
Qed.

End RasterFacts.

(** ** The request handlers *)

Section HandlerFacts.
Context `{cv : OpenCV} `{lept : Leptonica} `{tess : !Tesseract} `{jl : JsonLib}.

Lemma get_strings_all paths :
  Json.get_strings (JString <$> paths) = Converted paths.
Proof.
  induction paths as [|p paths IH]; [done|].
  rewrite fmap_cons. cbn [Json.get_strings Json.get_string]. by rewrite IH.
Qed.

Lemma get_strings_other l j :
  j ∈ l -> (forall s, j <> JString s) -> exists what, Json.get_strings l = TypeError what.
Proof.
  intros Hin Hj. induction l as [|k l IH]; [by apply elem_of_nil in Hin|].
  apply elem_of_cons in Hin as [<-|Hin].
  - simpl. destruct j; try (eexists; done). by destruct (Hj s).
  - simpl. destruct (Json.get_string k) as [s|w]; [|eauto].
    destruct (IH Hin) as [w ->]. eauto.
Qed.

(** X10. [handleBatchProcessing] answers 400 to a body that does not
    parse, to a request without an array "file_paths" and to an empty
    array, and 500 to an array with an element that is not a string; in
    all these cases the engine is not used, and the body of the answer
    carries the status code 400, also under the HTTP status 500.  To a
    non-empty array of strings it answers, when the answer serializes,
    200 with one entry per path, in order, the number of paths as
    "total_files" and the average of the confidences. *)
Theorem handleBatchProcessing_outcomes clk req_body e :
  wf e ->
  (json_parse req_body = None ->
   handleBatchProcessing clk req_body e =
     Some ({| code := 400; body := createErrorResponse clk "Invalid JSON format" 400 |}, e)) /\
  (forall j, json_parse req_body = Some j ->
     (Json.contains j "file_paths" = false \/
      Json.is_array (Json.at_key j "file_paths") = false ->
      handleBatchProcessing clk req_body e =
        Some ({| code := 400;
                 body := createErrorResponse clk "Missing or invalid file_paths array" 400 |},
              e)) /\
     (Json.contains j "file_paths" = true ->
      Json.at_key j "file_paths" = JArray [] ->
      handleBatchProcessing clk req_body e =
        Some ({| code := 400;
                 body := createErrorResponse clk "Empty file_paths array" 400 |}, e)) /\
     (forall l k, Json.contains j "file_paths" = true ->
        Json.at_key j "file_paths" = JArray l ->
        k ∈ l -> (forall s, k <> JString s) ->
        exists error,
          handleBatchProcessing clk req_body e =
            Some ({| code := 500; body := createErrorResponse clk error 400 |}, e)) /\
     (forall paths, Json.contains j "file_paths" = true ->
        Json.at_key j "file_paths" = JArray (JString <$> paths) ->
        paths <> [] ->
        exists results e',
          processBatch paths e = Some (results, e') /\
          length results = length paths /\
          handleBatchProcessing clk req_body e =
            Some (respond_success clk
                    (JObject {[ "results" := JArray (batch_entry <$> results);
                                "total_files" := JInt (Z.of_nat (length paths));
                                "processing_time" := JInt (elapsed_ms clk);
                                "average_confidence" :=
                                  JFloat (average_confidence results) ]}),
                  e'))) /\
  (forall data, dump_error (createSuccessResponse clk data) = None ->
     respond_success clk data =
       {| code := 200; body := createSuccessResponse clk data |}).
Proof.
  intros Hwf. split; [|split];
    [| |intros data Hd; unfold respond_success; by rewrite Hd];
    unfold handleBatchProcessing.
  { by intros ->. }
  intros j ->. split; [|split; [|split]].
  - intros [-> | ->]; [done | by rewrite orb_true_r].
  - intros -> ->. done.
  - intros l k -> -> Hin Hk. simpl.
    destruct (get_strings_other l k Hin Hk) as [w ->]. eauto.
  - intros paths -> -> Hne. simpl.
    rewrite get_strings_all.
    rewrite bool_decide_eq_false_2 by done.
    destruct (processBatch_total paths e Hwf) as (results & e' & Hb & _ & Hlen).
    exists results, e'. split; [done|].
    split; [done|]. rewrite Hb. simpl. unfold json_size. by rewrite Hlen.
Qed.

(** X11. [handleExtractRequest] answers 400 to a body that does not parse
    and to a request whose "file_path" is missing, null, or an empty
    array or object; 500, with the status code 400 in the body, to a
    "file_path" of any other kind that is not a string.  To every string,
    the empty one and the path of an unreadable file included, it
    answers, when the answer serializes, 200 with what [extractText]
    returns for it; for an unreadable file that is an empty text, the
    confidence 0 and no word. *)
Theorem handleExtractRequest_outcomes clk req_body e :
  wf e ->
  (json_parse req_body = None ->
   handleExtractRequest clk req_body e =
     Some ({| code := 400; body := createErrorResponse clk "Invalid JSON format" 400 |}, e)) /\
  (forall j, json_parse req_body = Some j ->
     (Json.contains j "file_path" = false \/
      Json.at_key j "file_path" = JNull \/
      Json.at_key j "file_path" = JArray [] \/
      Json.at_key j "file_path" = JObject ∅ ->
      handleExtractRequest clk req_body e =
        Some ({| code := 400;
                 body := createErrorResponse clk "Missing required fields" 400 |}, e)) /\
     (forall v, Json.contains j "file_path" = true ->
        Json.at_key j "file_path" = v ->
        Json.empty v = false -> (forall s, v <> JString s) ->
        exists error,
          handleExtractRequest clk req_body e =
            Some ({| code := 500; body := createErrorResponse clk error 400 |}, e)) /\
     (forall file_path, Json.contains j "file_path" = true ->
        Json.at_key j "file_path" = JString file_path ->
        exists result e',
          extractText file_path e = Some (result, e') /\
          (mat_empty (imread file_path) = true -> result = OCRResult_zero /\ e' = e) /\
          handleExtractRequest clk req_body e =
            Some (respond_success clk
                    (JObject {[ "text" := JString (text result);
                                "confidence" := JFloat (confidence result);
                                "processing_time" := JInt (elapsed_ms clk);
                                "word_count" := JInt (Z.of_nat (length (words result)));
                                "words" := JArray (JString <$> words result);
                                "word_confidences" :=
                                  JArray ((fun q => JFloat (Val q)) <$>
                                          word_confidences result) ]}),
                  e'))) /\
  (forall data, dump_error (createSuccessResponse clk data) = None ->
     respond_success clk data =
       {| code := 200; body := createSuccessResponse clk data |}).
Proof.
  intros Hwf. split; [|split];
    [| |intros data Hd; unfold respond_success; by rewrite Hd];
    unfold handleExtractRequest, validateRequest.
  { by intros ->. }
  intros j ->. split; [|split].
  - intros [-> | [-> | [-> | ->]]]; [done | by rewrite andb_comm ..].
  - intros v -> -> -> Hv. simpl. destruct v; try (eexists; done). by destruct (Hv s).
  - intros file_path -> ->. simpl.
    destruct (extractText_total file_path e Hwf) as [[result e'] Hx].
    exists result, e'. split; [done|]. split.
    + intros Hempty. unfold extractText in Hx. rewrite Hempty in Hx.
      by injection Hx as <- <-.
    + by rewrite Hx.
Qed.

(** X12. [handleDocumentAnalysis] answers 400 to a body that does not
    parse and to a request without "file_path"; 500, with the status code
    400 in the body, to a "file_path" that is not a string, null
    included.  To every string it answers, when the answer serializes,
    200 with what [analyzeDocument] returns for it; for an unreadable
    file that is an empty document type, no field and the confidence
    0. *)
Theorem handleDocumentAnalysis_outcomes clk req_body e :
  wf e ->
  (json_parse req_body = None ->
   handleDocumentAnalysis clk req_body e =
     Some ({| code := 400; body := createErrorResponse clk "Invalid JSON format" 400 |}, e)) /\
  (forall j, json_parse req_body = Some j ->
     (Json.contains j "file_path" = false ->
      handleDocumentAnalysis clk req_body e =
        Some ({| code := 400;
                 body := createErrorResponse clk "Missing file_path field" 400 |}, e)) /\
     (forall v, Json.contains j "file_path" = true ->
        Json.at_key j "file_path" = v -> (forall s, v <> JString s) ->
        exists error,
          handleDocumentAnalysis clk req_body e =
            Some ({| code := 500; body := createErrorResponse clk error 400 |}, e)) /\
     (forall file_path, Json.contains j "file_path" = true ->
        Json.at_key j "file_path" = JString file_path ->
        exists info e',
          analyzeDocument file_path e = Some (info, e') /\
          (mat_empty (imread file_path) = true -> info = DocumentInfo_zero /\ e' = e) /\
          handleDocumentAnalysis clk req_body e =
            Some (respond_success clk
                    (JObject {[ "document_type" := JString (document_type info);
                                "detected_fields" := JArray (JString <$> detected_fields info);
                                "extracted_data" := JObject (JString <$> extracted_data info);
                                "overall_confidence" := JFloat (overall_confidence info);
                                "processing_time" := JInt (elapsed_ms clk) ]}),
                  e'))) /\
  (forall data, dump_error (createSuccessResponse clk data) = None ->
     respond_success clk data =
       {| code := 200; body := createSuccessResponse clk data |}).
Proof.
  intros Hwf. split; [|split];
    [| |intros data Hd; unfold respond_success; by rewrite Hd];
    unfold handleDocumentAnalysis.
  { by intros ->. }
  intros j ->. split; [|split].
  - by intros ->.
  - intros v -> -> Hv. simpl. destruct v; try (eexists; done). by destruct (Hv s).
  - intros file_path -> ->. simpl.
    assert (exists info e', analyzeDocument file_path e = Some (info, e')) as (info & e' & Ha).
    { unfold analyzeDocument, analyzeDocumentFromMat.
      destruct (mat_empty _); [eauto|].
      destruct (extractTextFromMat_total (imread file_path) e Hwf) as [[r e1] ->].
      simpl. eauto. }
    exists info, e'. split; [done|]. split.
    + intros Hempty. unfold analyzeDocument in Ha. rewrite Hempty in Ha.
      by injection Ha as <- <-.
    + by rewrite Ha.
Qed.

End HandlerFacts.

(** ** The file name of an upload *)

Section UploadFacts.
Import Upload.

Lemma length_append s t : String.length (s +:+ t) = (String.length s + String.length t)%nat.
Proof. induction s as [|a s IH]; [done|]. rewrite append_cons. simpl. by rewrite IH. Qed.

Lemma substring_skip pre k n s :
  String.substring (String.length pre + k) n (pre +:+ s) = String.substring k n s.
Proof. induction pre as [|a pre IH]; [done|]. rewrite append_cons. simpl. apply IH. Qed.

Lemma substring_all s : String.substring 0 (String.length s) s = s.
Proof. induction s as [|a s IH]; [done|]. simpl. by rewrite IH. Qed.

Lemma substring_prefix s t : String.substring 0 (String.length s) (s +:+ t) = s.
Proof.
  induction s as [|a s IH].
  - rewrite append_nil. by destruct t.
  - rewrite append_cons. simpl. by rewrite IH.
Qed.

Lemma substring_drop k s :
  (k <= String.length s)%nat ->
  exists before, String.length before = k /\
    s = before +:+ String.substring k (String.length s - k) s.
Proof.
  revert s. induction k as [|k IH]; intros s Hk.
  - exists "". rewrite Nat.sub_0_r, substring_all. done.
  - destruct s as [|a s]; [simpl in Hk; lia|]. simpl in Hk.
    destruct (IH s) as (before & Hlen & Hs); [lia|].
    exists (String a before). simpl. rewrite Hlen. split; [done|].
    rewrite append_cons. by f_equal.
Qed.

Lemma find_char_absent s c :
  ~ substring (String c "") s -> find_char_from s c 0 = None.
Proof.
  induction s as [|d s IH]; [done|]. intros Hno. simpl.
  destruct (ascii_dec d c) as [->|Hne].
  - destruct Hno. exists "", s. done.
  - rewrite IH; [done|]. intros (before & after & ->). apply Hno.
    exists (String d before), after. done.
Qed.

Lemma find_char_first name c rest :
  ~ substring (String c "") name ->
  find_char_from (name +:+ String c rest) c 0 = Some (String.length name).
Proof.
  induction name as [|d name IH]; intros Hno.
  - rewrite append_nil. simpl. by destruct (ascii_dec c c).
  - rewrite append_cons. simpl. destruct (ascii_dec d c) as [->|Hne].
    + destruct Hno. exists "", name. done.
    + rewrite IH; [done|]. intros (before & after & ->). apply Hno.
      exists (String d before), after. done.
Qed.

Lemma uploaded_filename_at s pos filename :
  Str.find s "filename=" = Some pos ->
  substr_from s (pos + 10) = Normal filename ->
  uploaded_filename s =
    Some (Normal (prefix_upto filename (find_char_from filename (ascii_of_N 34) 1))).
Proof. intros Hf Hs. unfold uploaded_filename. rewrite Hf. simpl. by rewrite Hs. Qed.

Lemma no_substring_nil c : ~ substring (String c "") "".
Proof. intros (before & after & H). by destruct before. Qed.

Lemma substring_cons c d s :
  d <> c -> substring (String c "") (String d s) -> substring (String c "") s.
Proof.
  intros Hne (before & after & H). destruct before as [|b before].
  - rewrite append_nil, append_cons in H. by injection H.
  - rewrite append_cons in H. injection H as _ ->. by exists before, after.
Qed.

(** A string has no [c], or splits at its first [c]. *)
Lemma first_char_split c s :
  ~ substring (String c "") s \/
  exists name rest, s = name +:+ String c rest /\ ~ substring (String c "") name.
Proof.
  induction s as [|d s IH]; [left; apply no_substring_nil|].
  destruct (ascii_dec d c) as [->|Hne].
  - right. exists "", s. split; [done | apply no_substring_nil].
  - destruct IH as [Hno | (name & rest & -> & Hno)].
    + left. intros H. by apply Hno, (substring_cons c d).
    + right. exists (String d name), rest. split; [done|].
      intros H. by apply Hno, (substring_cons c d).
Qed.

(** X13. From a Content-Disposition value [saveUploadedFile] takes what
    follows the character after the first "filename=", whatever that
    character is.  Of this remainder it keeps the first character, a
    double quote included, and what follows it up to the next double
    quote, or up to the end when there is none; of an empty remainder it
    keeps nothing.  These cases cover every remainder.  When nothing
    follows "filename=", [substr] throws. *)
Theorem uploaded_filename_cases pre opening tail :
  Str.find (pre +:+ "filename=" +:+ String opening tail) "filename=" =
    Some (String.length pre) ->
  (tail = "" ->
   uploaded_filename (pre +:+ "filename=" +:+ String opening tail) = Some (Normal "")) /\
  (forall first name rest,
     tail = String first (name +:+ String (ascii_of_N 34) rest) ->
     ~ substring (String (ascii_of_N 34) "") name ->
     uploaded_filename (pre +:+ "filename=" +:+ String opening tail) =
       Some (Normal (String first name))) /\
  (forall first rest,
     tail = String first rest ->
     ~ substring (String (ascii_of_N 34) "") rest ->
     uploaded_filename (pre +:+ "filename=" +:+ String opening tail) =
       Some (Normal tail)) /\
  (tail = "" \/
   exists first rest,
     tail = String first rest /\
     (~ substring (String (ascii_of_N 34) "") rest \/
      exists name rest',
        rest = name +:+ String (ascii_of_N 34) rest' /\
        ~ substring (String (ascii_of_N 34) "") name)) /\
  (Str.find (pre +:+ "filename=") "filename=" = Some (String.length pre) ->
   uploaded_filename (pre +:+ "filename=") = Some Thrown).
Proof.
  intros Hfind.
  assert (substr_from (pre +:+ "filename=" +:+ String opening tail)
            (String.length pre + 10) = Normal tail) as Hsub.
  { unfold substr_from. rewrite !length_append. simpl String.length.
    destruct (Nat.leb_spec (String.length pre + 10)
                (String.length pre + (9 + S (String.length tail)))); [|lia].
    f_equal. rewrite substring_skip.
    replace (String.length pre + (9 + S (String.length tail)) - (String.length pre + 10))%nat
      with (String.length tail) by lia.
    change ("filename=" +:+ String opening tail)
      with (("filename=" +:+ String opening "") +:+ tail).
    change 10%nat with (String.length ("filename=" +:+ String opening "") + 0)%nat.
    rewrite substring_skip. apply substring_all. }
  split; [|split; [|split; [|split]]].
  - intros ->. by rewrite (uploaded_filename_at _ _ _ Hfind Hsub).
  - intros first name rest Ht Hno.
    rewrite (uploaded_filename_at _ _ _ Hfind Hsub). subst tail. do 2 f_equal.
    cbn [find_char_from]. rewrite find_char_first by done.
    simpl. f_equal. apply substring_prefix.
  - intros first rest Ht Hno.
    rewrite (uploaded_filename_at _ _ _ Hfind Hsub). subst tail. do 2 f_equal.
    cbn [find_char_from]. by rewrite find_char_absent.
  - destruct tail as [|first rest]; [by left|]. right. exists first, rest.
    split; [done|]. apply first_char_split.
  - intros Hfind'. unfold uploaded_filename. rewrite Hfind'. simpl.
    unfold substr_from. rewrite length_append. simpl String.length.
    destruct (Nat.leb_spec (String.length pre + 10) (String.length pre + 9)); [lia|done].
Qed.

End UploadFacts.

(** ** The further statements at concrete inputs *)

Section FurtherWitnesses.
Import Demo.


Lemma native_calls_follow_protocol_witness :
  exists e,
    run [OpInitialize InitZero; OpEnablePreprocessing false; OpExtractText "Total: 5";
         OpSetLanguage InitNonZero "deu"; OpCleanup] OCREngine_new = Some e /\
    length (native_calls e) = 5%nat /\
    follows_protocol (native_calls e).
Proof.
  eexists. split; [vm_compute; reflexivity|]. split; [reflexivity|].
  apply native_calls_follow_protocol.
  exists [OpInitialize InitZero; OpEnablePreprocessing false; OpExtractText "Total: 5";
          OpSetLanguage InitNonZero "deu"; OpCleanup].
  vm_compute. reflexivity.
Defined.

Lemma processBatch_splits_witness :
  wf plain /\
  (exists rs1 e1 rs2 e2,
     processBatch ["a"] plain = Some (rs1, e1) /\
     processBatch ["b"; ""] e1 = Some (rs2, e2) /\
     native_calls e1 <> native_calls plain /\
     processBatch ["a"; "b"; ""] plain = Some ((rs1 ++ rs2)%list, e2)) /\
  (exists rs2 e2,
     processBatch ["a"] plain = Some (rs2, e2) /\
     processBatch [""; "a"] plain = Some (OCRResult_zero :: rs2, e2)).
Proof.
  assert (wf plain) as Hwf by (intros _; eexists; reflexivity).
  split; [exact Hwf|]. split.
  - destruct (processBatch_splits ["a"] ["b"; ""] plain Hwf)
      as (rs1 & e1 & rs2 & e2 & H1 & H2 & H3 & _).
    exists rs1, e1, rs2, e2. split; [exact H1|]. split; [exact H2|].
    split; [|exact H3].
    vm_compute in H1. injection H1 as _ <-. discriminate.
  - destruct (processBatch_splits [""] ["a"] plain Hwf)
      as (rs1 & e1 & rs2 & e2 & H1 & H2 & H3 & _ & _ & Hsame).
    rewrite Hsame in H2
      by (constructor; [left; reflexivity | constructor]).
    exists rs2, e2. split; [exact H2|].
    vm_compute in H1. injection H1 as <- _. exact H3.
Defined.

Lemma deskew_uses_first_largest_contour_witness :
  findContours (OpenCV := DemoContours.cv) DemoContours.crowded_page
    RETR_EXTERNAL CHAIN_APPROX_SIMPLE =
    Normal [(2, 10); (5, -60); (5, 20); (1, -80)]%Q /\
  deskewImage (cv := DemoContours.cv) DemoContours.crowded_page =
    warpAffine (OpenCV := DemoContours.cv) DemoContours.crowded_page
      (getRotationMatrix2D (OpenCV := DemoContours.cv) (4 / 2, 2 / 2)%Q (90 + -60)%Q 1)
      (4, 2).
Proof.
  split; [reflexivity|].
  destruct (deskew_uses_first_largest_contour (cv := DemoContours.cv)
              DemoContours.crowded_page _ eq_refl)
    as (before & c & after & Heq & Hbefore & Hafter & Hd); [discriminate|].
  assert (c = (5, -60)%Q) as ->; [|rewrite Hd; reflexivity].
  destruct before as [|b1 [|b2 [|b3 [|b4 before]]]]; simpl in Heq.
  - injection Heq as <- <-.
    apply Forall_cons in Hafter as [Hle _]. simpl in Hle.
    exfalso. revert Hle. apply Qlt_not_le. reflexivity.
  - by injection Heq as _ <- _.
  - injection Heq as _ <- <- _.
    apply Forall_cons in Hbefore as [_ Hbefore].
    apply Forall_cons in Hbefore as [Hlt _]. simpl in Hlt.
    exfalso. revert Hlt. apply Qle_not_lt. discriminate.
  - injection Heq as <- _ _ <- _.
    apply Forall_cons in Hbefore as [Hlt _]. simpl in Hlt.
    exfalso. revert Hlt. apply Qle_not_lt. discriminate.
  - destruct before; discriminate Heq.
Defined.

Lemma adjusted_angle_within_45_witness :
  (-90 <= -50)%Q /\ (-50 < 45)%Q /\
  (-45 <= adjust_angle (-50))%Q /\ (adjust_angle (-50) < 45)%Q.
Proof.
  assert (-90 <= -50)%Q as H1 by (vm_compute; discriminate).
  assert (-50 < 45)%Q as H2 by reflexivity.
  destruct (adjusted_angle_within_45 (-50) H1 H2) as (H3 & H4 & _).
  auto.
Defined.

Lemma recognizer_reached_witness :
  exists r e',
    extractTextFromMat total_page plain = Some (r, e') /\
    native_calls e' <> native_calls plain /\
    preprocessing_enabled_ plain = false /\
    mat_channels total_page = 3.
Proof.
  eexists _, _. split; [vm_compute; reflexivity|]. split; [discriminate|].
  edestruct (recognizer_reached_only_without_preprocessing (Hch := demo_channels)
               total_page plain) as [Hreached _]; [vm_compute; reflexivity|].
  destruct Hreached as (_ & Hp & _); [discriminate|].
  split; [exact Hp | reflexivity].
Defined.

Lemma ascii_below_256 c : (N_of_ascii c < 256)%N.
Proof. destruct c as [[] [] [] [] [] [] [] []]; reflexivity. Qed.

Lemma demo_pix_access : @PixAccess Demo.cv DemoRaster.lept DemoRaster.rd.
Proof.
  split.
  - intros pix y x v y' x'. cbn.
    destruct (decide (y = y' /\ x = x')) as [[<- <-]|Hn].
    + by rewrite lookup_insert_eq.
    + rewrite lookup_insert_ne; [done|]. intros [= <- <-]. by apply Hn.
  - intros m y x. cbn. unfold byte_at.
    destruct (String.get _ _) as [c|]; [|lia].
    pose proof (ascii_below_256 c). lia.
Qed.

Lemma raster_copy_witness :
  GET_DATA_BYTE (PixRead := DemoRaster.rd)
    (copy_to_pix (lept := DemoRaster.lept) total_page ∅) 0 1 = 111 /\
  GET_DATA_BYTE (PixRead := DemoRaster.rd)
    (copy_to_pix (lept := DemoRaster.lept) total_page ∅) 1 1 = 0.
Proof.
  rewrite !(raster_copy_transfers_every_pixel (acc := demo_pix_access)).
  split; reflexivity.
Defined.

Lemma handleBatchProcessing_witness :
  wf plain /\
  exists resp e',
    handleBatchProcessing
      (jl := DemoHttp.parser (JObject {[ "file_paths" := JArray (JString <$> ["a"; ""]) ]}))
      DemoHttp.clock "body" plain = Some (resp, e') /\
    code resp = 200.
Proof.
  assert (wf plain) as Hwf by (intros _; eexists; reflexivity).
  split; [exact Hwf|].
  destruct (handleBatchProcessing_outcomes
              (jl := DemoHttp.parser (JObject {[ "file_paths" := JArray (JString <$> ["a"; ""]) ]}))
              DemoHttp.clock "body" plain Hwf) as (_ & Hj & _).
  destruct (Hj _ eq_refl) as (_ & _ & _ & Hok).
  destruct (Hok ["a"; ""]) as (results & e' & _ & _ & ->);
    [reflexivity | reflexivity | discriminate |].
  eexists _, _. split; reflexivity.
Defined.

Lemma handleExtractRequest_witness :
  wf plain /\
  exists resp,
    handleExtractRequest
      (jl := DemoHttp.parser (JObject {[ "file_path" := JString "" ]}))
      DemoHttp.clock "body" plain = Some (resp, plain) /\
    code resp = 200.
Proof.
  assert (wf plain) as Hwf by (intros _; eexists; reflexivity).
  split; [exact Hwf|].
  destruct (handleExtractRequest_outcomes
              (jl := DemoHttp.parser (JObject {[ "file_path" := JString "" ]}))
              DemoHttp.clock "body" plain Hwf) as (_ & Hj & _).
  destruct (Hj _ eq_refl) as (_ & _ & Hok).
  destruct (Hok "") as (result & e' & _ & Hzero & ->); [reflexivity | reflexivity |].
  destruct (Hzero eq_refl) as [-> ->].
  eexists. split; reflexivity.
Defined.

Lemma handleDocumentAnalysis_witness :
  wf plain /\
  exists error,
    handleDocumentAnalysis
      (jl := DemoHttp.parser (JObject {[ "file_path" := JNull ]}))
      DemoHttp.clock "body" plain =
    Some ({| code := 500; body := createErrorResponse DemoHttp.clock error 400 |}, plain).
Proof.
  assert (wf plain) as Hwf by (intros _; eexists; reflexivity).
  split; [exact Hwf|].
  destruct (handleDocumentAnalysis_outcomes
              (jl := DemoHttp.parser (JObject {[ "file_path" := JNull ]}))
              DemoHttp.clock "body" plain Hwf) as (_ & Hj & _).
  destruct (Hj _ eq_refl) as (_ & Hbad & _).
  apply (Hbad JNull); [reflexivity | reflexivity | discriminate].
Defined.

Lemma uploaded_filename_witness :
  Upload.uploaded_filename
    ("form-data; filename=" +:+ DQUOTE +:+ DQUOTE +:+ "a" +:+ DQUOTE) =
    Some (Normal (DQUOTE +:+ "a")) /\
  Upload.uploaded_filename ("form-data; filename=" +:+ DQUOTE +:+ DQUOTE) =
    Some (Normal DQUOTE).
Proof.
  split.
  - apply (proj1 (proj2 (uploaded_filename_cases "form-data; " (ascii_of_N 34)
                           (DQUOTE +:+ "a" +:+ DQUOTE) eq_refl))
             (ascii_of_N 34) "a" "").
    + reflexivity.
    + intros (before & after & H).
      assert (Str.contains "a" DQUOTE = true) as Hc
        by (apply contains_substring; by exists before, after).
      discriminate Hc.
  - apply (proj1 (proj2 (proj2 (uploaded_filename_cases "form-data; " (ascii_of_N 34)
                                  DQUOTE eq_refl)))
             (ascii_of_N 34) "").
    + reflexivity.
    + intros (before & after & H). by destruct before.
Defined.

End FurtherWitnesses.
